(** * LRUIPVRP: LRU replacement with an IPV-style insertion schedule

    A shallow embedding of [src/lru_ipv.hh] and [src/lru_ipv.cc], and the
    properties of the replacement policy proved over it.

    Conventions.
    - [int] is a 32-bit two's-complement integer and [uint64_t] a 64-bit
      unsigned one; both are carried as [Z] with the wrap-around written at
      every arithmetic operation that can leave the range.
    - [std::vector<T>] is a [list]; [v[i]] with an arbitrary index is
      partial (an index outside the vector has no defined result), inside a
      loop bounded by [v.size()] it is a plain list update.
    - the per-entry records live in the host's memory and are reached through
      shared pointers: they are a finite map from addresses to records, so
      that two candidates holding the same pointer share one record.
    - [fatal_if], [panic_if] and accesses without a defined result are the
      three ways an operation can fail to return. *)

From Stdlib Require Import ZArith Lia.
From stdpp Require Import base numbers option list sorting gmap.

Local Open Scope Z_scope.

(** ** Machine integers *)

Definition INT_MAX : Z := 2147483647.
Definition UINT64_MAX : Z := 18446744073709551615.

(** The value an integer has once stored in an [int]. *)
Definition wrap_int (z : Z) : Z := (z + 2 ^ 31) mod 2 ^ 32 - 2 ^ 31.

(** The value an integer has once stored in a [uint64_t]. *)
Definition wrap_u64 (z : Z) : Z := z mod 2 ^ 64.

Definition is_int (z : Z) : Prop := - 2 ^ 31 <= z <= INT_MAX.
Definition is_u64 (z : Z) : Prop := 0 <= z <= UINT64_MAX.

(** ** Outcomes of an operation *)

Inductive outcome (A : Type) : Type :=
| Ok (a : A)       (* the operation returns *)
| Fatal            (* fatal_if fired *)
| Panic            (* panic_if fired *)
| Undefined.       (* vector index out of range, or null record pointer *)

Arguments Ok {A} a.
Arguments Fatal {A}.
Arguments Panic {A}.
Arguments Undefined {A}.

#[global] Instance outcome_ret : MRet outcome := fun A a => Ok a.
#[global] Instance outcome_bind : MBind outcome := fun A B f m =>
  match m with
  | Ok a => f a
  | Fatal => Fatal
  | Panic => Panic
  | Undefined => Undefined
  end.

Definition is_Ok {A} (m : outcome A) : Prop := exists a, m = Ok a.

(** Range-for over a container, with a body that may fail. *)
Fixpoint for_each {A S : Type} (body : A -> S -> outcome S) (l : list A) (s : S)
  : outcome S :=
  match l with
  | [] => Ok s
  | x :: l' => s' ← body x s; for_each body l' s'
  end.

(** ** Vectors *)

(** [v[i]] read, for an index computed outside a bounded loop. *)
Definition vec_get {A} (v : list A) (i : Z) : outcome A :=
  if decide (0 <= i)
  then match v !! Z.to_nat i with Some x => Ok x | None => Undefined end
  else Undefined.

(** [v[i] = x]. *)
Definition vec_set {A} (v : list A) (i : Z) (x : A) : outcome (list A) :=
  if decide (0 <= i < Z.of_nat (length v))
  then Ok (<[Z.to_nat i := x]> v)
  else Undefined.

(** [for (size_t i = 0; i < n; ++i) body], the body total. *)
Definition fori {S : Type} (n : nat) (body : nat -> S -> S) (s : S) : S :=
  foldl (fun s i => body i s) s (seq 0 n).

(** [(int)i] for a [size_t] index. *)
Definition int_of_size (i : nat) : Z := wrap_int (Z.of_nat i).

(** ** Small utilities of the policy *)

(** [std::stable_sort] on a vector of indices: the comparison [lt a b] says
    that [a] goes strictly before [b]; elements that compare equivalent keep
    their input order. *)
Fixpoint stable_insert {A} (lt : A -> A -> bool) (x : A) (l : list A) : list A :=
  match l with
  | [] => [x]
  | y :: l' => if lt y x then y :: stable_insert lt x l' else x :: y :: l'
  end.

Definition stable_sort {A} (lt : A -> A -> bool) (l : list A) : list A :=
  foldr (stable_insert lt) [] l.

(** [normalize]: stable sort of the indices by age, then relabel 0..N-1. *)
Definition normalize_idx (v : list Z) : list Z :=
  let idx := fori (length v) (fun i idx => <[i := int_of_size i]> idx)
                  (replicate (length v) 0) in
  stable_sort (fun a b => bool_decide (v !!! Z.to_nat a < v !!! Z.to_nat b)) idx.

Definition normalize (v : list Z) : list Z :=
  fst (foldl (fun '(v, a) i => (<[Z.to_nat i := a]> v, wrap_u64 (a + 1)))
             (v, 0) (normalize_idx v)).

Definition currentMRU (v : list Z) : Z :=
  foldl (fun m x => Z.max m x) 0 v.

Definition promoteToMRU (v : list Z) (way : Z) : outcome (list Z * Z) :=
  old ← vec_get v way;
  let mru := currentMRU v in
  let v1 := fori (length v) (fun i v =>
              if decide (int_of_size i = way) then v
              else if decide (v !!! i > old)
                   then <[i := wrap_u64 (v !!! i - 1)]> v
                   else v) v in
  v2 ← vec_set v1 way mru;
  r ← vec_get v2 way;
  Ok (v2, r).

Definition insertNearLRU (v : list Z) (way : Z) : outcome (list Z * Z) :=
  let v1 := fori (length v) (fun i v =>
              if decide (int_of_size i = way) then v
              else <[i := wrap_u64 (v !!! i + 1)]> v) v in
  v2 ← vec_set v1 way 0;
  r ← vec_get v2 way;
  Ok (v2, r).

(** ** Data model *)

(** Address of a per-entry record in the host's memory. *)
Definition loc : Type := nat.

(** [LRUIPVRP::IPVReplData]. *)
Record IPVReplData : Type := mkIPVReplData {
  age : Z;       (* uint64_t: larger value == more recent *)
  valid : bool;
  set : Z;       (* uint32_t: cache set id, written in getVictim *)
  way : Z        (* uint32_t: way index, written in getVictim *)
}.

(** A candidate as the policy sees it: [ReplaceableEntry] of the host, with
    its two coordinate getters and its [replacementData] pointer. *)
Record ReplaceableEntry : Type := mkEntry {
  getSet : Z;            (* uint32_t *)
  getWay : Z;            (* uint32_t *)
  replacementData : loc
}.

#[global] Instance IPVReplData_eq_dec : EqDecision IPVReplData.
Proof. solve_decision. Defined.

#[global] Instance ReplaceableEntry_eq_dec : EqDecision ReplaceableEntry.
Proof. solve_decision. Defined.

(** The host's records. *)
Abbreviation heap := (gmap loc IPVReplData).

(** [LRUIPVRPParams]: the three configuration inputs, all [int]. *)
Record LRUIPVRPParams : Type := mkParams {
  p_numWays : Z;
  p_mru_pct : Z;
  p_quantum : Z
}.

(** The policy object: configuration and its three mutable members. *)
Record LRUIPVRP : Type := mkLRUIPVRP {
  numWays : Z;
  mruPct : Z;
  quantum : Z;
  pv : list Z;                    (* pv[i] == 1: insert MRU, 0: near LRU *)
  insPos : Z;
  setAges : gmap Z (list Z)       (* per-set age vectors *)
}.

Definition with_setAges (st : LRUIPVRP) (m : gmap Z (list Z)) : LRUIPVRP :=
  mkLRUIPVRP (numWays st) (mruPct st) (quantum st) (pv st) (insPos st) m.

Definition with_insPos (st : LRUIPVRP) (c : Z) : LRUIPVRP :=
  mkLRUIPVRP (numWays st) (mruPct st) (quantum st) (pv st) c (setAges st).

(** [*p] for a record pointer: a pointer that owns no record is null. *)
Definition deref (h : heap) (p : loc) : outcome IPVReplData :=
  match h !! p with Some d => Ok d | None => Undefined end.

(** ** Policy implementation *)

(** [ensureSet]: [setAges[set]] creates an empty vector when the set is
    absent; a vector shorter than [numWays] is resized and overwritten with
    the ascending sequence. *)
Definition ensureSet (st : LRUIPVRP) (set : Z) : LRUIPVRP :=
  let v := default [] (setAges st !! set) in
  if decide (int_of_size (length v) < numWays st)
  then
    let n := Z.to_nat (numWays st) in
    let v1 := resize n 0 v in
    let v2 := fori n (fun i v => <[i := Z.of_nat i]> v) v1 in
    with_setAges st (<[set := v2]> (setAges st))
  else with_setAges st (<[set := v]> (setAges st)).

(** The vector [setAges[set]] refers to. *)
Definition ages_of (st : LRUIPVRP) (set : Z) : list Z :=
  default [] (setAges st !! set).

(** [(quantum * mruPct) / 100] clamped to [0, quantum], in [int]
    arithmetic. *)
Definition mru_count (quantum mruPct : Z) : Z :=
  Z.max 0 (Z.min quantum (Z.quot (wrap_int (quantum * mruPct)) 100)).

(** The constructor. *)
Definition new_LRUIPVRP (p : LRUIPVRPParams) : outcome LRUIPVRP :=
  let numWays := p_numWays p in
  let mruPct := p_mru_pct p in
  let quantum := Z.max 1 (p_quantum p) in
  let pv := replicate (Z.to_nat quantum) 0 in
  let insPos := 0 in
  if decide (numWays <= 0) then Fatal
  else
    let pv := fori (Z.to_nat (mru_count quantum mruPct))
                   (fun i pv => <[i := 1]> pv) pv in
    Ok (mkLRUIPVRP numWays mruPct quantum pv insPos ∅).

(** [instantiateEntry]: a fresh record at an unused address. *)
Definition instantiateEntry (h : heap) : loc * heap :=
  let p := fresh (dom h) in
  (p, <[p := mkIPVReplData 0 false 0 0]> h).

Definition invalidate (st : LRUIPVRP) (h : heap) (rdata : loc)
  : outcome (LRUIPVRP * heap) :=
  d ← deref h rdata;
  let d := mkIPVReplData (age d) false (set d) (way d) in
  let d := mkIPVReplData 0 (valid d) (set d) (way d) in
  Ok (st, <[rdata := d]> h).

Definition touch (st : LRUIPVRP) (h : heap) (rdata : loc)
  : outcome (LRUIPVRP * heap) :=
  d ← deref h rdata;
  let set_ := set d in
  let way_ := wrap_int (way d) in
  let st := ensureSet st set_ in
  let v := ages_of st set_ in
  '(v, _) ← promoteToMRU v way_;
  let st := with_setAges st (<[set_ := v]> (setAges st)) in
  a ← vec_get v way_;
  Ok (st, <[rdata := mkIPVReplData a true (set d) (way d)]> h).

Definition reset (st : LRUIPVRP) (h : heap) (rdata : loc)
  : outcome (LRUIPVRP * heap) :=
  d ← deref h rdata;
  let set_ := set d in
  let way_ := wrap_int (way d) in
  let st := ensureSet st set_ in
  let v := ages_of st set_ in
  x ← vec_get (pv st) (insPos st);
  let insertMRU := bool_decide (x = 1) in
  let st := with_insPos st (Z.rem (wrap_int (insPos st + 1)) (quantum st)) in
  '(v, new_age) ← (if insertMRU then promoteToMRU v way_
                   else insertNearLRU v way_);
  let st := with_setAges st (<[set_ := v]> (setAges st)) in
  Ok (st, <[rdata := mkIPVReplData new_age true (set d) (way d)]> h).

(** First loop of [getVictim]: stamp the coordinates into a candidate's
    record. *)
Definition stamp (e : ReplaceableEntry) (h : heap) : outcome heap :=
  d ← deref h (replacementData e);
  let d := mkIPVReplData (age d) (valid d) (getSet e) (way d) in
  let d := mkIPVReplData (age d) (valid d) (set d) (getWay e) in
  let d := mkIPVReplData (age d) true (set d) (way d) in
  Ok (<[replacementData e := d]> h).

(** Second loop of [getVictim]: copy a candidate's stored age into the
    vector, when its way is inside [0, numWays). *)
Definition sync (nw : Z) (h : heap) (e : ReplaceableEntry) (v : list Z)
  : outcome (list Z) :=
  let w := wrap_int (getWay e) in
  if decide (w >= 0 /\ w < nw)
  then match h !! replacementData e with
       | Some d => vec_set v w (age d)
       | None => Ok v
       end
  else Ok v.

(** Third loop of [getVictim]: the running (victim, min_age) pair. *)
Definition scan (h : heap) (acc : ReplaceableEntry * Z) (e : ReplaceableEntry)
  : ReplaceableEntry * Z :=
  match h !! replacementData e with
  | Some d => if decide (age d <= snd acc) then (e, age d) else acc
  | None => acc
  end.

Definition getVictim (st : LRUIPVRP) (h : heap)
    (candidates : list ReplaceableEntry)
  : outcome (LRUIPVRP * heap * ReplaceableEntry) :=
  match candidates with
  | [] => Panic
  | any_entry :: _ =>
    let set_ := getSet any_entry in
    h ← for_each stamp candidates h;
    let st := ensureSet st set_ in
    let v := ages_of st set_ in
    v ← for_each (sync (numWays st) h) candidates v;
    let v := normalize v in
    let st := with_setAges st (<[set_ := v]> (setAges st)) in
    let victim := fst (foldl (scan h) (any_entry, UINT64_MAX) candidates) in
    Ok (st, h, victim)
  end.

(** ** Vocabulary of the properties *)

(** The vector holds exactly the values 0..n-1, each once. *)
Definition dense_perm (v : list Z) : Prop :=
  v ≡ₚ seqZ 0 (Z.of_nat (length v)).

(** The order a stable sort by [key] produces: strictly smaller key, or the
    same key and earlier ([ord]) in the input. *)
Definition key_then_ord {A} (key ord : A -> Z) (a b : A) : Prop :=
  key a < key b \/ (key a = key b /\ ord a < ord b).

(** Type and class invariants. A record's [age] is a [uint64_t]; the policy
    object keeps [numWays] positive, the pattern [quantum] long, the cursor
    inside it, and every vector it created [numWays] long. *)
Definition cand_ok (h : heap) (e : ReplaceableEntry) : Prop :=
  match h !! replacementData e with
  | Some d => is_u64 (age d)
  | None => False
  end.

Definition policy_ok (st : LRUIPVRP) : Prop :=
  0 < numWays st <= INT_MAX /\
  is_int (mruPct st) /\
  1 <= quantum st <= INT_MAX /\
  Z.of_nat (length (pv st)) = quantum st /\
  0 <= insPos st < quantum st /\
  map_Forall (fun _ v => Z.of_nat (length v) = numWays st) (setAges st).

#[global] Instance is_int_dec z : Decision (is_int z).
Proof. unfold is_int. apply _. Defined.

#[global] Instance is_u64_dec z : Decision (is_u64 z).
Proof. unfold is_u64. apply _. Defined.

#[global] Instance cand_ok_dec h e : Decision (cand_ok h e).
Proof. unfold cand_ok. destruct (h !! replacementData e); apply _. Defined.

#[global] Instance policy_ok_dec st : Decision (policy_ok st).
Proof. unfold policy_ok. apply _. Defined.

(** ** A running example: four ways, half of the fills at MRU, period two *)

Definition ex_params : LRUIPVRPParams := mkParams 4 50 2.

Definition ex_policy : LRUIPVRP := mkLRUIPVRP 4 50 2 [1; 0] 0 ∅.

(** Four records of set 7; ways 1 and 2 tie on the least age, way 1 was
    invalidated. *)
Definition ex_heap : heap :=
  list_to_map [(10%nat, mkIPVReplData 2 true 7 0);
               (11%nat, mkIPVReplData 0 false 7 1);
               (12%nat, mkIPVReplData 0 true 7 2);
               (13%nat, mkIPVReplData 5 true 7 3)].

Definition ex_cands : list ReplaceableEntry :=
  [mkEntry 7 0 10%nat; mkEntry 7 1 11%nat; mkEntry 7 2 12%nat; mkEntry 7 3 13%nat].

(** A candidate list in which one way (9) lies outside the four ways of the
    policy and holds the least age. *)
Definition ex_cands_wide : list ReplaceableEntry :=
  [mkEntry 7 0 10%nat; mkEntry 7 9 11%nat; mkEntry 7 3 13%nat].

(** ** The insertion schedule, as the specification words it *)

(** [clamp(quantum * mruPct / 100, 0, quantum)], the division rounding
    down, over the integers. *)
Definition spec_mru_count (quantum mruPct : Z) : Z :=
  Z.max 0 (Z.min quantum (quantum * mruPct / 100)).

(** Whether the next fill is an MRU insert: [pv[insPos] == 1]. *)
Definition next_is_MRU (st : LRUIPVRP) : bool :=
  match vec_get (pv st) (insPos st) with
  | Ok x => bool_decide (x = 1)
  | _ => false
  end.

(** Consecutive [reset] calls on the given records, with the decision the
    schedule took for each. *)
Fixpoint reset_all (st : LRUIPVRP) (h : heap) (ps : list loc)
  : outcome (list bool * LRUIPVRP * heap) :=
  match ps with
  | [] => Ok ([], st, h)
  | p :: ps' =>
      let b := next_is_MRU st in
      '(st1, h1) ← reset st h p;
      '(bs, st2, h2) ← reset_all st1 h1 ps';
      Ok (b :: bs, st2, h2)
  end.


(** The pattern the constructor writes: ones in the first [mru_count]
    slots, zeros in the others. *)
Definition pattern_ok (st : LRUIPVRP) : Prop :=
  forall i : nat, Z.of_nat i < quantum st ->
    pv st !! i
    = Some (if decide (Z.of_nat i < mru_count (quantum st) (mruPct st))
            then 1 else 0).

(** ** Explicit failures *)

(** The operation did not stop in [fatal_if] or [panic_if]. *)
Definition no_abort {A} (m : outcome A) : Prop :=
  m <> Fatal /\ m <> Panic.

(** A two-way policy, and the host's memory after one [instantiateEntry]. *)
Definition ex_params_narrow : LRUIPVRPParams := mkParams 2 50 2.

Definition ex_heap_fresh : heap := snd (instantiateEntry ∅).

Definition ex_rdata_fresh : loc := fst (instantiateEntry ∅).

(** ** The life of a policy object

    The host drives one policy object through the five operations; a call
    that does not return ends the run. *)
Inductive step : LRUIPVRP * heap -> LRUIPVRP * heap -> Prop :=
| step_instantiateEntry st h :
    step (st, h) (st, snd (instantiateEntry h))
| step_invalidate st h rdata st' h' :
    invalidate st h rdata = Ok (st', h') -> step (st, h) (st', h')
| step_touch st h rdata st' h' :
    touch st h rdata = Ok (st', h') -> step (st, h) (st', h')
| step_reset st h rdata st' h' :
    reset st h rdata = Ok (st', h') -> step (st, h) (st', h')
| step_getVictim st h candidates st' h' victim :
    getVictim st h candidates = Ok (st', h', victim) -> step (st, h) (st', h').

(** The states a policy constructed from [p] can be in. *)
Definition reachable (p : LRUIPVRPParams) (s : LRUIPVRP * heap) : Prop :=
  exists st0, new_LRUIPVRP p = Ok st0 /\ rtc step (st0, ∅) s.

Example normalize_ex1 : normalize [4; 0; 2; 3] = [3; 0; 1; 2].
Proof. reflexivity. Qed.

Example normalize_ex2 : normalize [5; 5; 1; 5] = [1; 2; 0; 3].
Proof. reflexivity. Qed.

Example promote_ex1 : promoteToMRU [0; 1; 2; 3] 0 = Ok ([3; 0; 1; 2], 3).
Proof. reflexivity. Qed.

Example insert_ex1 : insertNearLRU [3; 0; 1; 2] 1 = Ok ([4; 0; 2; 3], 0).
Proof. reflexivity. Qed.

(** * Properties *)

(** ** Machine integers and loops *)

Lemma wrap_int_id z : is_int z -> wrap_int z = z.
Proof.
  unfold is_int, INT_MAX, wrap_int. intros Hz.
  rewrite Z.mod_small; lia.
Qed.

Lemma wrap_int_range z : is_int (wrap_int z).
Proof.
  unfold is_int, INT_MAX, wrap_int.
  pose proof (Z.mod_pos_bound (z + 2 ^ 31) (2 ^ 32)). lia.
Qed.

Lemma wrap_u64_id z : is_u64 z -> wrap_u64 z = z.
Proof.
  unfold is_u64, UINT64_MAX, wrap_u64. intros Hz.
  rewrite Z.mod_small; lia.
Qed.

Lemma int_of_size_id (i : nat) : Z.of_nat i <= INT_MAX -> int_of_size i = Z.of_nat i.
Proof. intros Hi. apply wrap_int_id. unfold is_int, INT_MAX in *. lia. Qed.

Lemma fori_S {S : Type} n (body : nat -> S -> S) s :
  fori (Datatypes.S n) body s = body n (fori n body s).
Proof. unfold fori. by rewrite seq_S, foldl_app. Qed.

(** A loop whose [i]-th iteration rewrites slot [i] alone, from the value it
    holds, acts slot by slot. *)
Lemma fori_pointwise {A} `{Inhabited A}
    (body : nat -> list A -> list A) (g : nat -> A -> A) :
  (forall i v, (i < length v)%nat -> body i v = <[i := g i (v !!! i)]> v) ->
  forall n v, (n <= length v)%nat ->
    length (fori n body v) = length v /\
    forall j x, v !! j = Some x ->
      fori n body v !! j = Some (if decide (j < n)%nat then g j x else x).
Proof.
  intros Hbody n v. induction n as [|n IH]; intros Hn.
  - split; [done|]. intros j x Hj. by rewrite decide_False by lia.
  - destruct IH as [Hlen Hlk]; [lia|].
    rewrite fori_S, Hbody by lia. split.
    + by rewrite length_insert.
    + intros j x Hj. destruct (decide (j = n)) as [->|Hne].
      * rewrite list_lookup_insert_eq by lia.
        rewrite decide_True by lia. f_equal. f_equal.
        apply list_lookup_total_correct.
        rewrite (Hlk _ _ Hj). by rewrite decide_False by lia.
      * rewrite list_lookup_insert_ne by done.
        rewrite (Hlk _ _ Hj).
        destruct (decide (j < n)%nat), (decide (j < Datatypes.S n)%nat); done || lia.
Qed.

Lemma fori_fill (f : nat -> Z) (l0 : list Z) (n : nat) :
  length l0 = n ->
  fori n (fun i l => <[i := f i]> l) l0 = f <$> seq 0 n.
Proof.
  intros Hn.
  destruct (fori_pointwise (fun i l => <[i := f i]> l) (fun i _ => f i))
    with (n := n) (v := l0) as [Hlen Hlk]; [done|lia|].
  apply list_eq. intros j. destruct (decide (j < n)%nat) as [Hj|Hj].
  - destruct (lookup_lt_is_Some_2 l0 j) as [x Hx]; [lia|].
    rewrite (Hlk j x Hx), decide_True by done.
    by rewrite list_lookup_fmap, lookup_seq_lt.
  - rewrite !lookup_ge_None_2; [done| |]; rewrite ?length_fmap, ?length_seq; lia.
Qed.

Lemma vec_get_Ok {A} (v : list A) (i : Z) x :
  0 <= i -> v !! Z.to_nat i = Some x -> vec_get v i = Ok x.
Proof.
  intros Hi Hx. unfold vec_get. rewrite decide_True by lia. by rewrite Hx.
Qed.

Lemma vec_get_inv {A} (v : list A) (i : Z) x :
  vec_get v i = Ok x -> 0 <= i < Z.of_nat (length v) /\ v !! Z.to_nat i = Some x.
Proof.
  unfold vec_get. destruct (decide (0 <= i)); [|done].
  destruct (v !! Z.to_nat i) eqn:Hx; [|done]. intros [= ->].
  apply lookup_lt_Some in Hx as Hlt. split; [lia|done].
Qed.

Lemma vec_get_Undefined {A} (v : list A) (i : Z) :
  ~ (0 <= i < Z.of_nat (length v)) -> vec_get v i = Undefined.
Proof.
  intros Hi. unfold vec_get. destruct (decide (0 <= i)); [|done].
  rewrite lookup_ge_None_2; [done|lia].
Qed.

Lemma vec_set_Ok {A} (v : list A) (i : Z) x :
  0 <= i < Z.of_nat (length v) -> vec_set v i x = Ok (<[Z.to_nat i := x]> v).
Proof. intros Hi. unfold vec_set. by rewrite decide_True by lia. Qed.

(** ** Dense permutations *)

Lemma dense_perm_NoDup v : dense_perm v -> NoDup v.
Proof. unfold dense_perm. intros ->. apply NoDup_seqZ. Qed.

Lemma dense_perm_range v i x :
  dense_perm v -> v !! i = Some x -> 0 <= x < Z.of_nat (length v).
Proof.
  intros Hv Hx. apply list_elem_of_lookup_2 in Hx.
  unfold dense_perm in Hv. rewrite Hv in Hx.
  apply elem_of_seqZ in Hx. lia.
Qed.

Lemma dense_perm_elem v x :
  dense_perm v -> 0 <= x < Z.of_nat (length v) -> x ∈ v.
Proof.
  intros Hv Hx. unfold dense_perm in Hv. rewrite Hv.
  apply elem_of_seqZ. lia.
Qed.

(** Pigeonhole: distinct values, all below the length. *)
Lemma dense_perm_intro v :
  NoDup v ->
  (forall i x, v !! i = Some x -> 0 <= x < Z.of_nat (length v)) ->
  dense_perm v.
Proof.
  intros Hnd Hrange. unfold dense_perm.
  apply submseteq_length_Permutation.
  - apply NoDup_submseteq; [done|]. intros x Hx.
    apply list_elem_of_lookup_1 in Hx as [i Hi].
    apply elem_of_seqZ. specialize (Hrange _ _ Hi). lia.
  - rewrite length_seqZ. lia.
Qed.

(** ** [currentMRU] *)

Lemma currentMRU_foldl v m :
  m <= foldl (fun m x => Z.max m x) m v /\
  (forall x, x ∈ v -> x <= foldl (fun m x => Z.max m x) m v) /\
  (foldl (fun m x => Z.max m x) m v = m \/ foldl (fun m x => Z.max m x) m v ∈ v).
Proof.
  revert m. induction v as [|y v IH]; intros m; simpl.
  - split; [lia|]. split; [|by left]. intros x Hx. by apply elem_of_nil in Hx.
  - destruct (IH (Z.max m y)) as (H1 & H2 & H3). split; [lia|]. split.
    + intros x [->|Hx]%elem_of_cons; [lia|]. by apply H2.
    + destruct H3 as [H3|H3].
      * rewrite H3. destruct (Z.max_spec m y) as [[_ ->]|[_ ->]].
        -- right. by left.
        -- by left.
      * right. by right.
Qed.

Lemma currentMRU_dense v :
  dense_perm v -> v <> [] -> currentMRU v = Z.of_nat (length v) - 1.
Proof.
  intros Hv Hne. unfold currentMRU.
  destruct (currentMRU_foldl v 0) as (H1 & H2 & H3).
  assert (0 < Z.of_nat (length v)) by (destruct v; [done|simpl; lia]).
  assert (Z.of_nat (length v) - 1 ∈ v) as Hin by (apply dense_perm_elem; [done|lia]).
  apply H2 in Hin.
  destruct H3 as [H3|H3]; [lia|].
  apply list_elem_of_lookup_1 in H3 as [i Hi].
  apply (dense_perm_range _ _ _ Hv) in Hi. lia.
Qed.

(** ** The two rank update rules, on any vector *)

Lemma promoteToMRU_spec (v : list Z) (way old : Z) :
  Z.of_nat (length v) <= INT_MAX ->
  0 <= way -> v !! Z.to_nat way = Some old ->
  exists v',
    promoteToMRU v way = Ok (v', currentMRU v) /\
    length v' = length v /\
    v' !! Z.to_nat way = Some (currentMRU v) /\
    forall i x, i <> Z.to_nat way -> v !! i = Some x ->
      v' !! i = Some (if decide (x > old) then wrap_u64 (x - 1) else x).
Proof.
  intros Hsz Hway Hold.
  apply lookup_lt_Some in Hold as Hlt.
  unfold promoteToMRU.
  rewrite (vec_get_Ok _ _ _ Hway Hold). cbn [mbind outcome_bind].
  set (g := fun (i : nat) (x : Z) =>
              if decide (int_of_size i = way) then x
              else if decide (x > old) then wrap_u64 (x - 1) else x).
  match goal with |- context [fori _ ?b v] => set (body := b) end.
  destruct (fori_pointwise body g) with (n := length v) (v := v) as [Hlen Hlk].
  { intros i w Hi. unfold body, g.
    destruct (decide (int_of_size i = way));
      [symmetry; apply list_insert_id; by apply list_lookup_lookup_total_lt|].
    destruct (decide (w !!! i > old)); [done|].
    symmetry. apply list_insert_id. by apply list_lookup_lookup_total_lt. }
  { lia. }
  set (v1 := fori (length v) body v) in *.
  rewrite vec_set_Ok by lia. cbn [mbind outcome_bind].
  rewrite (vec_get_Ok _ _ (currentMRU v)) by (lia || apply list_lookup_insert_eq; lia).
  cbn [mbind outcome_bind].
  eexists. split; [done|]. split; [by rewrite length_insert|].
  split; [apply list_lookup_insert_eq; lia|].
  intros i x Hi Hx. rewrite list_lookup_insert_ne by done.
  rewrite (Hlk _ _ Hx). apply lookup_lt_Some in Hx as Hix.
  rewrite decide_True by done. unfold g.
  rewrite int_of_size_id by lia.
  rewrite decide_False by lia. done.
Qed.

Lemma insertNearLRU_spec (v : list Z) (way : Z) :
  Z.of_nat (length v) <= INT_MAX ->
  0 <= way < Z.of_nat (length v) ->
  exists v',
    insertNearLRU v way = Ok (v', 0) /\
    length v' = length v /\
    v' !! Z.to_nat way = Some 0 /\
    forall i x, i <> Z.to_nat way -> v !! i = Some x ->
      v' !! i = Some (wrap_u64 (x + 1)).
Proof.
  intros Hsz Hway. unfold insertNearLRU.
  set (g := fun (i : nat) (x : Z) =>
              if decide (int_of_size i = way) then x else wrap_u64 (x + 1)).
  match goal with |- context [fori _ ?b v] => set (body := b) end.
  destruct (fori_pointwise body g) with (n := length v) (v := v) as [Hlen Hlk].
  { intros i w Hi. unfold body, g.
    destruct (decide (int_of_size i = way)); [|done].
    symmetry. apply list_insert_id. by apply list_lookup_lookup_total_lt. }
  { lia. }
  set (v1 := fori (length v) body v) in *.
  rewrite vec_set_Ok by lia. cbn [mbind outcome_bind].
  rewrite (vec_get_Ok _ _ 0) by (lia || apply list_lookup_insert_eq; lia).
  cbn [mbind outcome_bind].
  eexists. split; [done|]. split; [by rewrite length_insert|].
  split; [apply list_lookup_insert_eq; lia|].
  intros i x Hi Hx. rewrite list_lookup_insert_ne by done.
  rewrite (Hlk _ _ Hx). apply lookup_lt_Some in Hx as Hix.
  rewrite decide_True by done. unfold g.
  rewrite int_of_size_id by lia.
  rewrite decide_False by lia. done.
Qed.

(** ** The two rank update rules, on a dense permutation *)

Lemma lookup_same_length {A} (v v' : list A) i y :
  length v' = length v -> v' !! i = Some y -> exists x, v !! i = Some x.
Proof.
  intros Hlen Hy. apply lookup_lt_Some in Hy.
  apply lookup_lt_is_Some_2. lia.
Qed.

(** C4: on a dense permutation of 0..n-1 and a way in 0..n-1, promoteToMRU
    returns; the result is again a dense permutation of 0..n-1, the chosen
    way holds n-1, every other way whose old value exceeded the chosen way's
    old value is decremented by one, and every other way is unchanged. *)
Theorem promoteToMRU_dense (v : list Z) (way : Z) :
  Z.of_nat (length v) <= INT_MAX ->
  dense_perm v ->
  0 <= way < Z.of_nat (length v) ->
  exists v' old,
    v !! Z.to_nat way = Some old /\
    promoteToMRU v way = Ok (v', Z.of_nat (length v) - 1) /\
    length v' = length v /\
    dense_perm v' /\
    v' !! Z.to_nat way = Some (Z.of_nat (length v) - 1) /\
    (forall i x, i <> Z.to_nat way -> v !! i = Some x ->
       v' !! i = Some (if decide (x > old) then x - 1 else x)).
Proof.
  intros Hsz Hv Hway.
  destruct (lookup_lt_is_Some_2 v (Z.to_nat way)) as [old Hold]; [lia|].
  destruct (promoteToMRU_spec v way old) as (v' & Hrun & Hlen & Hat & Hoth);
    [lia|lia|done|].
  rewrite currentMRU_dense in Hrun, Hat by (done || by intros ->).
  pose proof (dense_perm_range _ _ _ Hv Hold) as Hro.
  assert (forall i x, i <> Z.to_nat way -> v !! i = Some x ->
            v' !! i = Some (if decide (x > old) then x - 1 else x)) as Hoth'.
  { intros i x Hi Hx. rewrite (Hoth _ _ Hi Hx).
    pose proof (dense_perm_range _ _ _ Hv Hx).
    destruct (decide (x > old)); [|done].
    rewrite wrap_u64_id; [done|]. unfold is_u64, UINT64_MAX, INT_MAX in *. lia. }
  exists v', old. repeat split; try done.
  assert (forall i y, v' !! i = Some y ->
            exists x, v !! i = Some x /\ 0 <= x < Z.of_nat (length v) /\
              ((i = Z.to_nat way /\ x = old /\ y = Z.of_nat (length v) - 1) \/
               (i <> Z.to_nat way /\ x > old /\ y = x - 1) \/
               (i <> Z.to_nat way /\ x < old /\ y = x))) as Hchar.
  { intros i y Hy. destruct (lookup_same_length v v' i y Hlen Hy) as [x Hx].
    exists x. split; [done|].
    pose proof (dense_perm_range _ _ _ Hv Hx). split; [done|].
    destruct (decide (i = Z.to_nat way)) as [->|Hne].
    - left. split; [done|]. split; congruence.
    - right. rewrite (Hoth' _ _ Hne Hx) in Hy.
      assert (x <> old).
      { intros ->. apply Hne.
        eapply NoDup_lookup; eauto using dense_perm_NoDup. }
      destruct (decide (x > old)); [left|right]; split_and!; try done.
      + congruence.
      + lia.
      + congruence. }
  apply dense_perm_intro.
  - apply NoDup_alt. intros i j y Hi Hj.
    destruct (Hchar _ _ Hi) as (xi & Hxi & Hri & Hci).
    destruct (Hchar _ _ Hj) as (xj & Hxj & Hrj & Hcj).
    assert (xi = xj -> i = j) as Hinj.
    { intros ->. eapply NoDup_lookup; eauto using dense_perm_NoDup. }
    destruct Hci as [(-> & ? & ?)|[(? & ? & ?)|(? & ? & ?)]],
             Hcj as [(-> & ? & ?)|[(? & ? & ?)|(? & ? & ?)]];
      try done; try lia; apply Hinj; lia.
  - intros i y Hi. rewrite Hlen.
    destruct (Hchar _ _ Hi) as (xi & Hxi & Hri & Hci). lia.
Qed.

(** C3, as amended: on a dense permutation of 0..n-1 and a way in 0..n-1,
    insertNearLRU returns a vector of the same length in which the chosen way
    holds 0 and every other way holds its old value plus one; that vector is
    a dense permutation of 0..n-1 exactly when the chosen way held n-1. *)
Theorem insertNearLRU_dense (v : list Z) (way : Z) :
  Z.of_nat (length v) <= INT_MAX ->
  dense_perm v ->
  0 <= way < Z.of_nat (length v) ->
  exists v' old,
    v !! Z.to_nat way = Some old /\
    insertNearLRU v way = Ok (v', 0) /\
    length v' = length v /\
    v' !! Z.to_nat way = Some 0 /\
    (forall i x, i <> Z.to_nat way -> v !! i = Some x -> v' !! i = Some (x + 1)) /\
    (dense_perm v' <-> old = Z.of_nat (length v) - 1).
Proof.
  intros Hsz Hv Hway.
  destruct (lookup_lt_is_Some_2 v (Z.to_nat way)) as [old Hold]; [lia|].
  destruct (insertNearLRU_spec v way) as (v' & Hrun & Hlen & Hat & Hoth);
    [lia|lia|].
  pose proof (dense_perm_range _ _ _ Hv Hold) as Hro.
  assert (forall i x, i <> Z.to_nat way -> v !! i = Some x ->
            v' !! i = Some (x + 1)) as Hoth'.
  { intros i x Hi Hx. rewrite (Hoth _ _ Hi Hx).
    pose proof (dense_perm_range _ _ _ Hv Hx).
    rewrite wrap_u64_id; [done|]. unfold is_u64, UINT64_MAX, INT_MAX in *. lia. }
  exists v', old. split_and!; try done.
  split.
  - intros Hv'. destruct (decide (old = Z.of_nat (length v) - 1)) as [|Hne]; [done|].
    exfalso.
    assert (Z.of_nat (length v) - 1 ∈ v) as Hin by (apply dense_perm_elem; [done|lia]).
    apply list_elem_of_lookup_1 in Hin as [i Hi].
    assert (i <> Z.to_nat way) as Hiw by (intros ->; congruence).
    pose proof (Hoth' _ _ Hiw Hi) as Hi'.
    apply (dense_perm_range _ _ _ Hv') in Hi'. lia.
  - intros ->.
    assert (forall i y, v' !! i = Some y ->
              exists x, v !! i = Some x /\ 0 <= x < Z.of_nat (length v) /\
                ((i = Z.to_nat way /\ y = 0) \/
                 (i <> Z.to_nat way /\ x < Z.of_nat (length v) - 1 /\ y = x + 1)))
      as Hchar.
    { intros i y Hy. destruct (lookup_same_length v v' i y Hlen Hy) as [x Hx].
      exists x. split; [done|].
      pose proof (dense_perm_range _ _ _ Hv Hx). split; [done|].
      destruct (decide (i = Z.to_nat way)) as [->|Hne].
      - left. split; congruence.
      - right. rewrite (Hoth' _ _ Hne Hx) in Hy.
        assert (x <> Z.of_nat (length v) - 1).
        { intros ->. apply Hne.
          eapply NoDup_lookup; eauto using dense_perm_NoDup. }
        split_and!; [done|lia|congruence]. }
    apply dense_perm_intro.
    + apply NoDup_alt. intros i j y Hi Hj.
      destruct (Hchar _ _ Hi) as (xi & Hxi & Hri & Hci).
      destruct (Hchar _ _ Hj) as (xj & Hxj & Hrj & Hcj).
      assert (xi = xj -> i = j) as Hinj.
      { intros ->. eapply NoDup_lookup; eauto using dense_perm_NoDup. }
      destruct Hci as [(-> & ?)|(? & ? & ?)], Hcj as [(-> & ?)|(? & ? & ?)];
        try done; try lia; apply Hinj; lia.
    + intros i y Hi. rewrite Hlen.
      destruct (Hchar _ _ Hi) as (xi & Hxi & Hri & Hci). lia.
Qed.

Lemma promoteToMRU_dense_witness :
  dense_perm [2; 0; 3; 1] /\
  exists v' old,
    [2; 0; 3; 1] !! Z.to_nat 1 = Some old /\
    promoteToMRU [2; 0; 3; 1] 1 = Ok (v', Z.of_nat (length [2; 0; 3; 1]) - 1) /\
    length v' = length [2; 0; 3; 1] /\
    dense_perm v' /\
    v' !! Z.to_nat 1 = Some (Z.of_nat (length [2; 0; 3; 1]) - 1) /\
    (forall i x, i <> Z.to_nat 1 -> [2; 0; 3; 1] !! i = Some x ->
       v' !! i = Some (if decide (x > old) then x - 1 else x)).
Proof.
  assert (dense_perm [2; 0; 3; 1]) as Hd by (unfold dense_perm; compute_done).
  split; [exact Hd|].
  apply (promoteToMRU_dense [2; 0; 3; 1] 1); [unfold INT_MAX; simpl; lia|exact Hd|simpl; lia].
Defined.

Example promoteToMRU_dense_run : promoteToMRU [2; 0; 3; 1] 1 = Ok ([1; 3; 2; 0], 3).
Proof. reflexivity. Qed.

(** C3 as stated fails: Scenario A's second fill starts from the dense
    permutation [3,0,1,2] and leaves [4,0,2,3]. *)
Lemma insertNearLRU_dense_counterexample :
  dense_perm [3; 0; 1; 2] /\
  insertNearLRU [3; 0; 1; 2] 1 = Ok ([4; 0; 2; 3], 0) /\
  ~ dense_perm [4; 0; 2; 3].
Proof.
  split; [unfold dense_perm; compute_done|].
  split; [reflexivity|].
  intros Hd.
  pose proof (dense_perm_range [4; 0; 2; 3] 0 4 Hd eq_refl) as Hr.
  simpl in Hr. lia.
Qed.

Lemma insertNearLRU_dense_witness :
  dense_perm [3; 0; 1; 2] /\
  exists v' old,
    [3; 0; 1; 2] !! Z.to_nat 1 = Some old /\
    insertNearLRU [3; 0; 1; 2] 1 = Ok (v', 0) /\
    length v' = length [3; 0; 1; 2] /\
    v' !! Z.to_nat 1 = Some 0 /\
    (forall i x, i <> Z.to_nat 1 -> [3; 0; 1; 2] !! i = Some x ->
       v' !! i = Some (x + 1)) /\
    (dense_perm v' <-> old = Z.of_nat (length [3; 0; 1; 2]) - 1).
Proof.
  assert (dense_perm [3; 0; 1; 2]) as Hd by (unfold dense_perm; compute_done).
  split; [exact Hd|].
  apply (insertNearLRU_dense [3; 0; 1; 2] 1); [unfold INT_MAX; simpl; lia|exact Hd|simpl; lia].
Defined.

(** ** [std::stable_sort]

    The contract of [std::stable_sort] (the result is a permutation of the
    input, ordered by the comparison, equivalent elements in input order)
    fixes its result; the insertion sort above meets it. *)

Section stable_sort.
Context {A : Type} (key ord : A -> Z).

Local Abbreviation lt := (fun a b : A => bool_decide (key a < key b)).
Local Abbreviation lex := (key_then_ord key ord).

Lemma stable_insert_perm x l : stable_insert lt x l ≡ₚ x :: l.
Proof.
  induction l as [|y l IH]; simpl; [done|].
  case_bool_decide; [|done].
  rewrite IH. apply Permutation_swap.
Qed.

Lemma stable_sort_perm l : stable_sort lt l ≡ₚ l.
Proof.
  induction l as [|x l IH]; simpl; [done|].
  rewrite stable_insert_perm. by f_equiv.
Qed.

Lemma stable_insert_sorted x l :
  StronglySorted lex l ->
  Forall (fun y => ord x < ord y) l ->
  StronglySorted lex (stable_insert lt x l).
Proof.
  induction l as [|y l IH]; intros Hs Hx; simpl.
  - by repeat constructor.
  - apply StronglySorted_inv in Hs as [Hs Hy].
    apply Forall_cons in Hx as [Hxy Hx].
    case_bool_decide as Hlt.
    + constructor; [by apply IH|].
      rewrite stable_insert_perm. constructor; [by left|done].
    + constructor; [by constructor|].
      constructor; [unfold key_then_ord; lia|].
      rewrite Forall_forall in Hy, Hx |- *. intros z Hz.
      specialize (Hy z Hz). specialize (Hx z Hz).
      unfold key_then_ord in *. lia.
Qed.

Lemma stable_sort_sorted l :
  StronglySorted (fun a b => ord a < ord b) l ->
  StronglySorted lex (stable_sort lt l).
Proof.
  induction l as [|x l IH]; intros Hs; simpl; [constructor|].
  apply StronglySorted_inv in Hs as [Hs Hx].
  apply stable_insert_sorted; [by apply IH|].
  by rewrite stable_sort_perm.
Qed.

(** Any other result allowed by the contract is the same list. *)
Lemma stable_sort_unique l l' :
  (forall a b, ord a = ord b -> a = b) ->
  StronglySorted (fun a b => ord a < ord b) l ->
  l' ≡ₚ l -> StronglySorted lex l' ->
  l' = stable_sort lt l.
Proof.
  intros Hinj Hs Hp Hs'.
  apply (StronglySorted_unique_strong lex).
  - intros a b _ _ Hab Hba. apply Hinj.
    unfold key_then_ord in *. lia.
  - done.
  - by apply stable_sort_sorted.
  - by rewrite stable_sort_perm.
Qed.
End stable_sort.

Lemma StronglySorted_lookup {A} (R : relation A) l i j x y :
  StronglySorted R l -> l !! i = Some x -> l !! j = Some y -> (i < j)%nat ->
  R x y.
Proof.
  intros Hs. revert i j. induction Hs as [|a l Hs IH Ha]; intros i j Hi Hj Hij.
  - done.
  - destruct j as [|j]; [lia|]. simpl in Hj. destruct i as [|i]; simpl in Hi.
    + injection Hi as ->. rewrite Forall_forall in Ha.
      apply Ha. by eapply list_elem_of_lookup_2.
    + eapply IH; eauto. lia.
Qed.

(** ** [normalize] *)

Lemma iota_sorted s n :
  StronglySorted (fun a b : Z => a < b) (Z.of_nat <$> seq s n).
Proof.
  revert s. induction n as [|n IH]; intros s; simpl; constructor; [apply IH|].
  apply Forall_fmap, Forall_seq. intros i Hi. simpl. lia.
Qed.

(** The index vector before the sort is 0, 1, ..., size-1. *)
Lemma normalize_iota (n : nat) :
  Z.of_nat n <= INT_MAX ->
  fori n (fun i idx => <[i := int_of_size i]> idx) (replicate n 0)
  = Z.of_nat <$> seq 0 n.
Proof.
  intros Hn. rewrite fori_fill by (by rewrite length_replicate).
  apply list_fmap_ext. intros k i [-> Hi]%lookup_seq.
  apply int_of_size_id. lia.
Qed.

Lemma normalize_idx_perm v :
  Z.of_nat (length v) <= INT_MAX ->
  normalize_idx v ≡ₚ Z.of_nat <$> seq 0 (length v).
Proof.
  intros Hn. unfold normalize_idx. rewrite normalize_iota by done.
  apply (stable_sort_perm (fun a => v !!! Z.to_nat a)).
Qed.

Lemma normalize_idx_sorted v :
  Z.of_nat (length v) <= INT_MAX ->
  StronglySorted (key_then_ord (fun a => v !!! Z.to_nat a) id) (normalize_idx v).
Proof.
  intros Hn. unfold normalize_idx. rewrite normalize_iota by done.
  apply (stable_sort_sorted (fun a => v !!! Z.to_nat a) id), iota_sorted.
Qed.

(** The relabelling loop: the [k]-th index of the sorted vector receives
    [a + k]; a slot that is not listed keeps its value. *)
Lemma relabel_spec (idx : list Z) : forall (v : list Z) (a : Z),
  NoDup idx ->
  (forall i, i ∈ idx -> 0 <= i < Z.of_nat (length v)) ->
  0 <= a -> a + Z.of_nat (length idx) <= UINT64_MAX ->
  let r := foldl (fun '(v, a) i => (<[Z.to_nat i := a]> v, wrap_u64 (a + 1)))
                 (v, a) idx in
  length (fst r) = length v /\
  (forall (k : nat) i, idx !! k = Some i ->
     fst r !! Z.to_nat i = Some (a + Z.of_nat k)) /\
  (forall j : nat, Z.of_nat j ∉ idx -> fst r !! j = v !! j).
Proof.
  induction idx as [|i idx IH]; intros v a Hnd Hrange Ha Hmax; simpl.
  - split; [done|]. split; [|done]. intros k i Hk. by rewrite lookup_nil in Hk.
  - apply NoDup_cons in Hnd as [Hi Hnd]. simpl in Hmax.
    rewrite wrap_u64_id by (unfold is_u64; lia).
    assert (0 <= i < Z.of_nat (length v)) as Hir by (apply Hrange; by left).
    destruct (IH (<[Z.to_nat i := a]> v) (a + 1)) as (Hlen & Hk & Hout);
      [done| |lia|lia|].
    { intros j Hj. rewrite length_insert. apply Hrange. by right. }
    rewrite length_insert in Hlen. split; [done|]. split.
    + intros [|k] j Hj; simpl in Hj.
      * injection Hj as <-. rewrite Hout by (by rewrite Z2Nat.id by lia).
        rewrite list_lookup_insert_eq by lia. f_equal. lia.
      * rewrite (Hk _ _ Hj). f_equal. lia.
    + intros j Hj. apply not_elem_of_cons in Hj as [Hji Hj].
      rewrite Hout by done. apply list_lookup_insert_ne. lia.
Qed.

(** What [normalize] computes: slot [i] receives the position of [i] in the
    stably sorted index vector. *)
Lemma normalize_positions v :
  Z.of_nat (length v) <= INT_MAX ->
  length (normalize v) = length v /\
  forall (k : nat) i, normalize_idx v !! k = Some i ->
    normalize v !! Z.to_nat i = Some (Z.of_nat k).
Proof.
  intros Hn. pose proof (normalize_idx_perm v Hn) as Hp.
  destruct (relabel_spec (normalize_idx v) v 0) as (Hlen & Hk & _).
  - rewrite Hp. apply NoDup_fmap_2; [apply _|apply NoDup_seq].
  - intros i. rewrite Hp. intros (j & -> & Hj%elem_of_seq)%list_elem_of_fmap. lia.
  - done.
  - rewrite Hp, length_fmap, length_seq. unfold INT_MAX, UINT64_MAX in *. lia.
  - unfold normalize. split; [done|]. intros k i Hi. by rewrite (Hk _ _ Hi).
Qed.

Lemma normalize_position_of v (i : nat) y :
  Z.of_nat (length v) <= INT_MAX ->
  normalize v !! i = Some y ->
  exists k : nat, y = Z.of_nat k /\ normalize_idx v !! k = Some (Z.of_nat i).
Proof.
  intros Hn Hy. destruct (normalize_positions v Hn) as [Hlen Hpos].
  apply lookup_lt_Some in Hy as Hi. rewrite Hlen in Hi.
  assert (Z.of_nat i ∈ normalize_idx v) as Hin.
  { rewrite (normalize_idx_perm v Hn). apply list_elem_of_fmap.
    exists i. split; [done|]. apply elem_of_seq. lia. }
  apply list_elem_of_lookup_1 in Hin as [k Hk].
  exists k. split; [|done].
  specialize (Hpos _ _ Hk). rewrite Nat2Z.id in Hpos. congruence.
Qed.

Lemma normalize_order v (i j : nat) x y x' y' :
  Z.of_nat (length v) <= INT_MAX ->
  v !! i = Some x -> v !! j = Some y ->
  normalize v !! i = Some x' -> normalize v !! j = Some y' ->
  x < y \/ (x = y /\ (i < j)%nat) -> x' < y'.
Proof.
  intros Hn Hx Hy Hx' Hy' Hlt.
  destruct (normalize_position_of v i x' Hn Hx') as (ki & -> & Hki).
  destruct (normalize_position_of v j y' Hn Hy') as (kj & -> & Hkj).
  destruct (decide (ki < kj)%nat) as [|Hge]; [lia|]. exfalso.
  destruct (decide (ki = kj)) as [->|Hne].
  - assert (i = j) by (apply Nat2Z.inj; congruence). subst j.
    assert (x = y) by congruence. lia.
  - pose proof (StronglySorted_lookup _ _ kj ki _ _
                  (normalize_idx_sorted v Hn) Hkj Hki ltac:(lia)) as Hs.
    unfold key_then_ord in Hs. simpl in Hs. rewrite !Nat2Z.id in Hs.
    rewrite (list_lookup_total_correct _ _ _ Hx) in Hs.
    rewrite (list_lookup_total_correct _ _ _ Hy) in Hs.
    lia.
Qed.

Lemma normalize_dense v :
  Z.of_nat (length v) <= INT_MAX -> dense_perm (normalize v).
Proof.
  intros Hn. destruct (normalize_positions v Hn) as [Hlen _].
  apply dense_perm_intro.
  - apply NoDup_alt. intros i j y Hi Hj.
    destruct (normalize_position_of v i y Hn Hi) as (ki & -> & Hki).
    destruct (normalize_position_of v j _ Hn Hj) as (kj & Heq & Hkj).
    apply Nat2Z.inj in Heq as <-. apply Nat2Z.inj. congruence.
  - intros i y Hi.
    destruct (normalize_position_of v i y Hn Hi) as (ki & -> & Hki).
    apply lookup_lt_Some in Hki.
    rewrite (normalize_idx_perm v Hn), length_fmap, length_seq in Hki. lia.
Qed.

(** C7: normalize rewrites the vector so that its values are exactly
    0..size-1; a way with a strictly smaller old value gets a strictly
    smaller new value, and among ways with equal old values the way with the
    smaller index gets the smaller new value. *)
Theorem normalize_stable_relabel (v : list Z) :
  Z.of_nat (length v) <= INT_MAX ->
  length (normalize v) = length v /\
  dense_perm (normalize v) /\
  (forall (i j : nat) x y x' y',
     v !! i = Some x -> v !! j = Some y ->
     normalize v !! i = Some x' -> normalize v !! j = Some y' ->
     (x < y -> x' < y') /\ (x = y -> (i < j)%nat -> x' < y')).
Proof.
  intros Hn. split; [apply (normalize_positions v Hn)|].
  split; [by apply normalize_dense|].
  intros i j x y x' y' Hx Hy Hx' Hy'. split.
  - intros Hlt. eapply (normalize_order v i j); eauto.
  - intros Heq Hij. eapply (normalize_order v i j); eauto.
Qed.

Lemma normalize_stable_relabel_witness :
  Z.of_nat (length [5; 5; 1; 5]) <= INT_MAX /\
  length (normalize [5; 5; 1; 5]) = length [5; 5; 1; 5] /\
  dense_perm (normalize [5; 5; 1; 5]) /\
  (forall (i j : nat) x y x' y',
     [5; 5; 1; 5] !! i = Some x -> [5; 5; 1; 5] !! j = Some y ->
     normalize [5; 5; 1; 5] !! i = Some x' ->
     normalize [5; 5; 1; 5] !! j = Some y' ->
     (x < y -> x' < y') /\ (x = y -> (i < j)%nat -> x' < y')).
Proof.
  assert (Z.of_nat (length [5; 5; 1; 5]) <= INT_MAX) as Hn
    by (unfold INT_MAX; simpl; lia).
  split; [exact Hn|]. exact (normalize_stable_relabel [5; 5; 1; 5] Hn).
Defined.

(** ** [ensureSet] *)

Lemma ensureSet_spec st s :
  policy_ok st ->
  ensureSet st s = with_setAges st (<[s := ages_of (ensureSet st s) s]> (setAges st)) /\
  Z.of_nat (length (ages_of (ensureSet st s) s)) = numWays st /\
  (forall v, setAges st !! s = Some v -> ages_of (ensureSet st s) s = v) /\
  (setAges st !! s = None ->
   ages_of (ensureSet st s) s = Z.of_nat <$> seq 0 (Z.to_nat (numWays st))).
Proof.
  intros (Hnw & _ & _ & _ & _ & Hvec).
  unfold ensureSet, ages_of. destruct (setAges st !! s) as [v|] eqn:Hs; simpl.
  - specialize (Hvec _ _ Hs). simpl in Hvec.
    rewrite int_of_size_id by lia. rewrite decide_False by lia.
    simpl. rewrite lookup_insert_eq. simpl. split_and!; try done. congruence.
  - rewrite int_of_size_id by (simpl; unfold INT_MAX; lia).
    rewrite decide_True by (simpl; lia).
    simpl. rewrite lookup_insert_eq. simpl.
    rewrite fori_fill by (by rewrite length_resize).
    rewrite length_fmap, length_seq. split_and!; try done. lia.
Qed.

Lemma ensureSet_ok st s : policy_ok st -> policy_ok (ensureSet st s).
Proof.
  intros Hok. destruct (ensureSet_spec st s Hok) as (Heq & Hlen & _).
  rewrite Heq. destruct Hok as (? & ? & ? & ? & ? & Hvec).
  unfold policy_ok, with_setAges. simpl. split_and!; try done; try lia.
  by apply map_Forall_insert_2.
Qed.

(** ** The three loops of [getVictim] *)

Lemma stamp_Ok e h d :
  h !! replacementData e = Some d ->
  stamp e h
  = Ok (<[replacementData e := mkIPVReplData (age d) true (getSet e) (getWay e)]> h).
Proof. unfold stamp, deref. by intros ->. Qed.

Lemma stamp_null e h :
  h !! replacementData e = None -> stamp e h = Undefined.
Proof. unfold stamp, deref. by intros ->. Qed.

(** The stamping loop returns when every candidate points to a record; it
    creates no record, changes no age, leaves the records no candidate
    points to as they were, and marks the others valid with the coordinates
    of a candidate that points to them. *)
Lemma for_each_stamp cands : forall h,
  (forall e, e ∈ cands -> is_Some (h !! replacementData e)) ->
  exists h1, for_each stamp cands h = Ok h1 /\
    (forall p, h !! p = None -> h1 !! p = None) /\
    (forall p d, h !! p = Some d ->
       exists d1, h1 !! p = Some d1 /\ age d1 = age d /\
         ((d1 = d /\ forall e, e ∈ cands -> replacementData e <> p) \/
          (valid d1 = true /\
           exists e, e ∈ cands /\ replacementData e = p /\
                     set d1 = getSet e /\ way d1 = getWay e))).
Proof.
  induction cands as [|e l IH]; intros h Hptr; simpl.
  - exists h. split; [done|]. split; [done|]. intros p d Hp.
    exists d. split_and!; try done. left. split; [done|].
    intros e He. by apply elem_of_nil in He.
  - destruct (Hptr e) as [d0 Hd0]; [by left|].
    rewrite (stamp_Ok _ _ _ Hd0). cbn [mbind outcome_bind].
    set (sd := mkIPVReplData (age d0) true (getSet e) (getWay e)).
    destruct (IH (<[replacementData e := sd]> h)) as (h1 & Hrun & Hnone & Hsome).
    { intros e' He'. apply lookup_insert_is_Some'. right. apply Hptr. by right. }
    exists h1. split; [done|]. split.
    + intros p Hp. apply Hnone. rewrite lookup_insert_ne; [done|congruence].
    + intros p d Hp. destruct (decide (replacementData e = p)) as [Heq|Hne].
      * subst p. assert (d = d0) as -> by congruence.
        destruct (Hsome (replacementData e) sd) as (d1 & Hd1 & Hage & Hcase);
          [by rewrite lookup_insert_eq|].
        exists d1. split_and!; try done. right.
        destruct Hcase as [[-> _]|(Hv & e' & He' & Hr & Hs & Hw)].
        -- split; [done|]. exists e. split_and!; try done. by left.
        -- split; [done|]. exists e'. split_and!; try done. by right.
      * destruct (Hsome p d) as (d1 & Hd1 & Hage & Hcase);
          [by rewrite lookup_insert_ne|].
        exists d1. split_and!; try done.
        destruct Hcase as [[-> Hno]|(Hv & e' & He' & Hr & Hs & Hw)].
        -- left. split; [done|]. intros e' [->|He']%elem_of_cons; [done|by apply Hno].
        -- right. split; [done|]. exists e'. split_and!; try done. by right.
Qed.

(** The synchronization loop never writes outside the vector, keeps its
    length, and writes only slots that are the in-range way of a
    candidate. *)
Lemma for_each_sync nw h cands : forall v,
  nw <= Z.of_nat (length v) ->
  exists v', for_each (sync nw h) cands v = Ok v' /\
    length v' = length v /\
    (forall i : nat,
       (forall e, e ∈ cands ->
          0 <= wrap_int (getWay e) < nw -> wrap_int (getWay e) <> Z.of_nat i) ->
       v' !! i = v !! i).
Proof.
  induction cands as [|e l IH]; intros v Hlen; simpl.
  - by exists v.
  - assert (exists v1, sync nw h e v = Ok v1 /\ length v1 = length v /\
              forall i : nat,
                (0 <= wrap_int (getWay e) < nw -> wrap_int (getWay e) <> Z.of_nat i) ->
                v1 !! i = v !! i) as (v1 & -> & Hl1 & Hk1).
    { unfold sync. case_decide as Hw; [|by exists v].
      destruct (h !! replacementData e) as [d|]; [|by exists v].
      rewrite vec_set_Ok by lia. eexists. split; [done|].
      split; [by rewrite length_insert|].
      intros i Hi. apply list_lookup_insert_ne.
      specialize (Hi ltac:(lia)). lia. }
    cbn [mbind outcome_bind].
    destruct (IH v1) as (v' & Hrun & Hl & Hk); [lia|].
    exists v'. split; [done|]. split; [lia|].
    intros i Hi. rewrite Hk, Hk1; [done| |].
    + apply Hi. by left.
    + intros e' He'. apply Hi. by right.
Qed.

(** The selection loop: either no candidate was taken, and all are above the
    initial bound, or the running victim is the last candidate that holds
    the least stored age. *)
Lemma foldl_scan h cands : forall acc,
  (forall e, e ∈ cands -> is_Some (h !! replacementData e)) ->
  let r := foldl (scan h) acc cands in
  (r = acc /\
   forall e d, e ∈ cands -> h !! replacementData e = Some d -> snd acc < age d) \/
  (exists k : nat, cands !! k = Some (fst r) /\
     (exists d, h !! replacementData (fst r) = Some d /\ age d = snd r) /\
     snd r <= snd acc /\
     (forall (j : nat) e d, cands !! j = Some e ->
        h !! replacementData e = Some d -> snd r <= age d) /\
     (forall (j : nat) e d, cands !! j = Some e -> (k < j)%nat ->
        h !! replacementData e = Some d -> snd r < age d)).
Proof.
  induction cands as [|x l IH] using rev_ind; intros acc Hptr; simpl.
  - left. split; [done|]. intros e d He. by apply elem_of_nil in He.
  - rewrite foldl_app. simpl.
    destruct (Hptr x) as [dx Hdx]; [apply elem_of_app; right; by left|].
    specialize (IH acc ltac:(intros e He; apply Hptr, elem_of_app; by left)).
    simpl in IH. set (r := foldl (scan h) acc l) in *.
    assert (scan h r x = if decide (age dx <= snd r) then (x, age dx) else r)
      as -> by (unfold scan; by rewrite Hdx).
    case_decide as Hle; simpl.
    + right. exists (length l). split; [by apply list_lookup_middle|].
      split; [by exists dx|].
      assert (forall (j : nat) e d, (l ++ [x]) !! j = Some e ->
                h !! replacementData e = Some d -> age dx <= age d) as Hall.
      { intros j e d Hj Hd. apply lookup_app_Some in Hj as [Hj|[_ Hj]].
        - destruct IH as [[-> Hgt]|(k & _ & _ & _ & Hmin & _)].
          + apply list_elem_of_lookup_2 in Hj. specialize (Hgt _ _ Hj Hd). lia.
          + specialize (Hmin _ _ _ Hj Hd). lia.
        - apply list_lookup_singleton_Some in Hj as [_ <-].
          assert (d = dx) as -> by congruence. lia. }
      split_and!; [|done|].
      * destruct IH as [[-> _]|(_ & _ & _ & ? & _)]; lia.
      * intros j e d Hj Hlt Hd. apply lookup_lt_Some in Hj.
        rewrite length_app in Hj. simpl in Hj. lia.
    + destruct IH as [[Hr Hgt]|(k & Hk & Hd & Hacc & Hmin & Hlast)].
      * left. split; [done|]. intros e d [He|He]%elem_of_app Hd.
        -- by eapply Hgt.
        -- apply list_elem_of_singleton in He as ->.
           assert (d = dx) as -> by congruence. rewrite Hr in Hle. lia.
      * right. exists k. split; [by apply lookup_app_l_Some|].
        split; [done|]. split; [done|]. split.
        -- intros j e d Hj Hde. apply lookup_app_Some in Hj as [Hj|[_ Hj]].
           ++ by eapply Hmin.
           ++ apply list_lookup_singleton_Some in Hj as [_ <-].
              assert (d = dx) as -> by congruence. lia.
        -- intros j e d Hj Hlt Hde. apply lookup_app_Some in Hj as [Hj|[_ Hj]].
           ++ by eapply Hlast.
           ++ apply list_lookup_singleton_Some in Hj as [_ <-].
              assert (d = dx) as -> by congruence. lia.
Qed.

(** ** [getVictim] *)

Lemma ensureSet_numWays st s : numWays (ensureSet st s) = numWays st.
Proof. unfold ensureSet. by case_decide. Qed.

(** With at least one candidate, each pointing to a record, [getVictim]
    returns, and its result is made of the results of its three loops. *)
Lemma getVictim_run st h e0 l :
  policy_ok st ->
  (forall e, e ∈ e0 :: l -> is_Some (h !! replacementData e)) ->
  let s := getSet e0 in
  let st1 := ensureSet st s in
  exists h1 v1,
    for_each stamp (e0 :: l) h = Ok h1 /\
    for_each (sync (numWays st) h1) (e0 :: l) (ages_of st1 s) = Ok v1 /\
    length v1 = length (ages_of st1 s) /\
    getVictim st h (e0 :: l)
    = Ok (with_setAges st1 (<[s := normalize v1]> (setAges st1)), h1,
          fst (foldl (scan h1) (e0, UINT64_MAX) (e0 :: l))).
Proof.
  intros Hok Hptr s st1.
  destruct (for_each_stamp (e0 :: l) h Hptr) as (h1 & Hstamp & _).
  destruct (ensureSet_spec st s Hok) as (_ & Hlen & _).
  destruct (for_each_sync (numWays st) h1 (e0 :: l) (ages_of st1 s))
    as (v1 & Hsync & Hl1 & _); [subst st1; lia|].
  exists h1, v1. split; [done|]. split; [done|]. split; [done|].
  unfold getVictim. rewrite Hstamp. cbn [mbind outcome_bind].
  fold s. fold st1. subst st1. rewrite ensureSet_numWays.
  rewrite Hsync. done.
Qed.

Lemma stamp_age cands h h1 p :
  (forall e, e ∈ cands -> is_Some (h !! replacementData e)) ->
  for_each stamp cands h = Ok h1 ->
  age <$> h1 !! p = age <$> h !! p.
Proof.
  intros Hptr Hrun.
  destruct (for_each_stamp cands h Hptr) as (h1' & Hrun' & Hnone & Hsome).
  assert (h1' = h1) as -> by congruence.
  destruct (h !! p) as [d|] eqn:Hp.
  - destruct (Hsome _ _ Hp) as (d1 & -> & Hage & _). simpl. by rewrite Hage.
  - by rewrite (Hnone _ Hp).
Qed.

Lemma cand_ok_inv h e : cand_ok h e ->
  exists d, h !! replacementData e = Some d /\ is_u64 (age d).
Proof.
  unfold cand_ok. destruct (h !! replacementData e) as [d|]; [|done]. by exists d.
Qed.

(** Started from [UINT64_MAX], the selection loop over records with
    [uint64_t] ages takes a candidate: the last one that holds the least
    age. *)
Lemma scan_last_min h1 e0 l :
  (forall e, e ∈ e0 :: l ->
     exists d, h1 !! replacementData e = Some d /\ is_u64 (age d)) ->
  let victim := fst (foldl (scan h1) (e0, UINT64_MAX) (e0 :: l)) in
  exists (k : nat) dv,
    (e0 :: l) !! k = Some victim /\
    h1 !! replacementData victim = Some dv /\
    (forall (j : nat) e d, (e0 :: l) !! j = Some e ->
       h1 !! replacementData e = Some d -> age dv <= age d) /\
    (forall (j : nat) e d, (e0 :: l) !! j = Some e -> (k < j)%nat ->
       h1 !! replacementData e = Some d -> age dv < age d).
Proof.
  intros Hrec victim.
  assert (forall e, e ∈ e0 :: l -> is_Some (h1 !! replacementData e)) as Hptr.
  { intros e He. destruct (Hrec e He) as (d & -> & _). by eexists. }
  pose proof (foldl_scan h1 (e0 :: l) (e0, UINT64_MAX) Hptr) as Hscan.
  cbn zeta in Hscan. fold victim in Hscan.
  destruct Hscan as [[_ Hgt]|(k & Hk & (d1 & Hd1 & Hmin1) & _ & Hmin & Hlast)].
  - exfalso. destruct (Hrec e0 ltac:(by left)) as (d & Hd & Hu).
    specialize (Hgt e0 d ltac:(by left) Hd). simpl in Hgt.
    unfold is_u64 in Hu. lia.
  - exists k, d1. split; [done|]. split; [done|]. rewrite Hmin1. by split.
Qed.

(** Stamping keeps every record in place with its age. *)
Lemma stamp_lookup cands h h1 :
  (forall e, e ∈ cands -> is_Some (h !! replacementData e)) ->
  for_each stamp cands h = Ok h1 ->
  (forall p d, h !! p = Some d -> exists d1, h1 !! p = Some d1 /\ age d1 = age d) /\
  (forall p d1, h1 !! p = Some d1 -> exists d, h !! p = Some d /\ age d1 = age d).
Proof.
  intros Hptr Hrun. split.
  - intros p d Hd. pose proof (stamp_age cands h h1 p Hptr Hrun) as Ha.
    rewrite Hd in Ha. destruct (h1 !! p) as [d1|]; [|done].
    exists d1. split; [done|]. simpl in Ha. congruence.
  - intros p d1 Hd1. pose proof (stamp_age cands h h1 p Hptr Hrun) as Ha.
    rewrite Hd1 in Ha. destruct (h !! p) as [d|]; [|done].
    exists d. split; [done|]. simpl in Ha. congruence.
Qed.

Lemma cand_ok_ptr h cands :
  Forall (cand_ok h) cands ->
  forall e, e ∈ cands -> is_Some (h !! replacementData e).
Proof.
  rewrite Forall_forall. intros Hc e He.
  destruct (cand_ok_inv _ _ (Hc e He)) as (d & -> & _). by eexists.
Qed.

(** C1: for a non-empty candidate list, getVictim returns a candidate whose
    stored age is at most the stored age of every candidate of the call,
    and every candidate after it in the list has a strictly larger stored
    age: among the candidates that hold the minimum it is the last one. *)
Theorem getVictim_minimal_last st h cands :
  policy_ok st -> cands <> [] -> Forall (cand_ok h) cands ->
  exists st' h' victim (k : nat) dv,
    getVictim st h cands = Ok (st', h', victim) /\
    cands !! k = Some victim /\
    h !! replacementData victim = Some dv /\
    (forall (j : nat) e d, cands !! j = Some e ->
       h !! replacementData e = Some d -> age dv <= age d) /\
    (forall (j : nat) e d, cands !! j = Some e -> (k < j)%nat ->
       h !! replacementData e = Some d -> age dv < age d).
Proof.
  intros Hok Hne Hcands. destruct cands as [|e0 l]; [done|].
  pose proof (cand_ok_ptr h _ Hcands) as Hptr.
  destruct (getVictim_run st h e0 l Hok Hptr) as (h1 & v1 & Hstamp & _ & _ & Hrun).
  destruct (stamp_lookup _ _ _ Hptr Hstamp) as [Hfwd Hbwd].
  destruct (scan_last_min h1 e0 l) as (k & d1 & Hk & Hd1 & Hmin & Hlast).
  { intros e He. rewrite Forall_forall in Hcands.
    destruct (cand_ok_inv _ _ (Hcands e He)) as (d & Hd & Hu).
    destruct (Hfwd _ _ Hd) as (d' & Hd' & Hage). exists d'. by rewrite Hage. }
  destruct (Hbwd _ _ Hd1) as (dv & Hdv & Hage).
  rewrite Hrun. eexists _, h1, _, k, dv.
  split; [done|]. split; [done|]. split; [done|]. split.
  - intros j e d Hj Hd. destruct (Hfwd _ _ Hd) as (d' & Hd' & Hage').
    specialize (Hmin _ _ _ Hj Hd'). lia.
  - intros j e d Hj Hlt Hd. destruct (Hfwd _ _ Hd) as (d' & Hd' & Hage').
    specialize (Hlast _ _ _ Hj Hlt Hd'). lia.
Qed.

Lemma getVictim_minimal_last_witness :
  policy_ok ex_policy /\ ex_cands <> [] /\ Forall (cand_ok ex_heap) ex_cands /\
  exists st' h' victim (k : nat) dv,
    getVictim ex_policy ex_heap ex_cands = Ok (st', h', victim) /\
    ex_cands !! k = Some victim /\
    ex_heap !! replacementData victim = Some dv /\
    (forall (j : nat) e d, ex_cands !! j = Some e ->
       ex_heap !! replacementData e = Some d -> age dv <= age d) /\
    (forall (j : nat) e d, ex_cands !! j = Some e -> (k < j)%nat ->
       ex_heap !! replacementData e = Some d -> age dv < age d).
Proof.
  assert (policy_ok ex_policy) as H1 by compute_done.
  assert (ex_cands <> []) as H2 by discriminate.
  assert (Forall (cand_ok ex_heap) ex_cands) as H3 by compute_done.
  split; [exact H1|]. split; [exact H2|]. split; [exact H3|].
  exact (getVictim_minimal_last ex_policy ex_heap ex_cands H1 H2 H3).
Defined.

Example getVictim_tie_run :
  match getVictim ex_policy ex_heap ex_cands with
  | Ok (st', _, victim) =>
      victim = mkEntry 7 2 12%nat /\ setAges st' !! 7 = Some [2; 0; 1; 3]
  | _ => False
  end.
Proof. vm_compute. done. Qed.

(** C2 as stated fails: getVictim also writes [valid]. The record of way 1
    is invalid before the call and valid after it. *)
Lemma getVictim_frame_counterexample :
  valid <$> ex_heap !! 11%nat = Some false /\
  match getVictim ex_policy ex_heap ex_cands with
  | Ok (_, h', _) => valid <$> h' !! 11%nat = Some true
  | _ => False
  end.
Proof. split; vm_compute; done. Qed.

(** C2, as amended: for a non-empty candidate list getVictim returns; it
    creates and removes no record and changes no record's age; on every
    record a candidate points to it sets valid to true and writes the
    coordinates of a candidate that points to it; every other record is
    unchanged. *)
Theorem getVictim_frame st h cands :
  policy_ok st -> cands <> [] ->
  (forall e, e ∈ cands -> is_Some (h !! replacementData e)) ->
  exists st' h' victim,
    getVictim st h cands = Ok (st', h', victim) /\
    (forall p, age <$> h' !! p = age <$> h !! p) /\
    (forall e, e ∈ cands ->
       exists d' e', h' !! replacementData e = Some d' /\ valid d' = true /\
         e' ∈ cands /\ replacementData e' = replacementData e /\
         set d' = getSet e' /\ way d' = getWay e') /\
    (forall p, (forall e, e ∈ cands -> replacementData e <> p) -> h' !! p = h !! p).
Proof.
  intros Hok Hne Hptr. destruct cands as [|e0 l]; [done|].
  destruct (getVictim_run st h e0 l Hok Hptr) as (h1 & v1 & Hstamp & _ & _ & Hrun).
  rewrite Hrun. eexists _, h1, _. split; [done|].
  destruct (for_each_stamp (e0 :: l) h Hptr) as (h1' & Hstamp' & Hnone & Hsome).
  assert (h1' = h1) as -> by congruence.
  split; [intros p; by eapply stamp_age|]. split.
  - intros e He. destruct (Hptr e He) as [d Hd].
    destruct (Hsome _ _ Hd) as (d1 & Hd1 & _ & Hcase). exists d1.
    destruct Hcase as [[_ Hno]|(Hv & e' & He' & Hr & Hs & Hw)].
    + by destruct (Hno e He).
    + exists e'. by split_and!.
  - intros p Hp. destruct (h !! p) as [d|] eqn:Hd; [|by apply Hnone].
    destruct (Hsome _ _ Hd) as (d1 & Hd1 & _ & Hcase).
    destruct Hcase as [[-> _]|(_ & e' & He' & Hr & _)]; [done|].
    by destruct (Hp e' He').
Qed.

Lemma getVictim_frame_witness :
  policy_ok ex_policy /\ ex_cands <> [] /\
  (forall e, e ∈ ex_cands -> is_Some (ex_heap !! replacementData e)) /\
  exists st' h' victim,
    getVictim ex_policy ex_heap ex_cands = Ok (st', h', victim) /\
    (forall p, age <$> h' !! p = age <$> ex_heap !! p) /\
    (forall e, e ∈ ex_cands ->
       exists d' e', h' !! replacementData e = Some d' /\ valid d' = true /\
         e' ∈ ex_cands /\ replacementData e' = replacementData e /\
         set d' = getSet e' /\ way d' = getWay e') /\
    (forall p, (forall e, e ∈ ex_cands -> replacementData e <> p) ->
       h' !! p = ex_heap !! p).
Proof.
  assert (policy_ok ex_policy) as H1 by compute_done.
  assert (ex_cands <> []) as H2 by discriminate.
  assert (forall e, e ∈ ex_cands -> is_Some (ex_heap !! replacementData e)) as H3.
  { intros e He. unfold ex_cands in He.
    repeat (apply elem_of_cons in He as [->|He]; [by eexists|]).
    by apply elem_of_nil in He. }
  split; [exact H1|]. split; [exact H2|]. split; [exact H3|].
  exact (getVictim_frame ex_policy ex_heap ex_cands H1 H2 H3).
Defined.

(** C5: after getVictim on a non-empty candidate list, the vector of the
    candidates' set holds exactly the values 0..numWays-1, each once,
    whatever the stored ages and whatever the vector held before. *)
Theorem getVictim_permutation st h cands :
  policy_ok st -> cands <> [] ->
  (forall e, e ∈ cands -> is_Some (h !! replacementData e)) ->
  exists st' h' victim e0 v,
    getVictim st h cands = Ok (st', h', victim) /\
    head cands = Some e0 /\
    numWays st' = numWays st /\
    setAges st' !! getSet e0 = Some v /\
    Z.of_nat (length v) = numWays st /\
    dense_perm v.
Proof.
  intros Hok Hne Hptr. destruct cands as [|e0 l]; [done|].
  destruct (getVictim_run st h e0 l Hok Hptr) as (h1 & v1 & _ & _ & Hl1 & Hrun).
  rewrite Hrun. destruct (ensureSet_spec st (getSet e0) Hok) as (_ & Hlen & _).
  assert (Z.of_nat (length v1) <= INT_MAX) as Hsz by (destruct Hok; lia).
  destruct (normalize_positions v1 Hsz) as [Hln _].
  eexists _, h1, _, e0, (normalize v1). split; [done|]. split; [done|].
  simpl. split; [apply ensureSet_numWays|].
  split; [by rewrite lookup_insert_eq|]. split; [lia|].
  by apply normalize_dense.
Qed.

Lemma getVictim_permutation_witness :
  policy_ok ex_policy /\ ex_cands <> [] /\
  (forall e, e ∈ ex_cands -> is_Some (ex_heap !! replacementData e)) /\
  exists st' h' victim e0 v,
    getVictim ex_policy ex_heap ex_cands = Ok (st', h', victim) /\
    head ex_cands = Some e0 /\
    numWays st' = numWays ex_policy /\
    setAges st' !! getSet e0 = Some v /\
    Z.of_nat (length v) = numWays ex_policy /\
    dense_perm v.
Proof.
  assert (policy_ok ex_policy) as H1 by compute_done.
  assert (ex_cands <> []) as H2 by discriminate.
  assert (forall e, e ∈ ex_cands -> is_Some (ex_heap !! replacementData e)) as H3.
  { intros e He. unfold ex_cands in He.
    repeat (apply elem_of_cons in He as [->|He]; [by eexists|]).
    by apply elem_of_nil in He. }
  split; [exact H1|]. split; [exact H2|]. split; [exact H3|].
  exact (getVictim_permutation ex_policy ex_heap ex_cands H1 H2 H3).
Defined.

(** C10: in the synchronization step of getVictim a candidate whose way is
    outside 0..numWays-1 is skipped; the loop returns without an
    out-of-range write, and changes only slots that are the in-range way of
    a candidate; a candidate with an out-of-range way is still returned as
    the victim when its stored age is below that of every other
    candidate. *)
Theorem getVictim_sync_in_bounds st h cands :
  policy_ok st -> cands <> [] -> Forall (cand_ok h) cands ->
  (forall e v, ~ (0 <= wrap_int (getWay e) < numWays st) ->
     forall h1, sync (numWays st) h1 e v = Ok v) /\
  (exists e0 h1 v1 st' victim,
     head cands = Some e0 /\
     let v0 := ages_of (ensureSet st (getSet e0)) (getSet e0) in
     for_each (sync (numWays st) h1) cands v0 = Ok v1 /\
     getVictim st h cands = Ok (st', h1, victim) /\
     setAges st' !! getSet e0 = Some (normalize v1) /\
     Z.of_nat (length v0) = numWays st /\
     length v1 = length v0 /\
     (forall i : nat,
        (forall e, e ∈ cands -> 0 <= wrap_int (getWay e) < numWays st ->
           wrap_int (getWay e) <> Z.of_nat i) ->
        v1 !! i = v0 !! i) /\
     (forall e d, e ∈ cands -> h !! replacementData e = Some d ->
        ~ (0 <= wrap_int (getWay e) < numWays st) ->
        (forall e' d', e' ∈ cands -> e' <> e ->
           h !! replacementData e' = Some d' -> age d < age d') ->
        victim = e)).
Proof.
  intros Hok Hne Hcands. split.
  { intros e v Hw h1. unfold sync. rewrite decide_False; [done|lia]. }
  destruct cands as [|e0 l]; [done|].
  pose proof (cand_ok_ptr h _ Hcands) as Hptr.
  destruct (getVictim_run st h e0 l Hok Hptr)
    as (h1 & v1 & Hstamp & Hsync & Hl1 & Hrun).
  destruct (ensureSet_spec st (getSet e0) Hok) as (_ & Hlen & _).
  destruct (for_each_sync (numWays st) h1 (e0 :: l)
              (ages_of (ensureSet st (getSet e0)) (getSet e0)))
    as (v1' & Hsync' & _ & Hkeep); [lia|].
  assert (v1' = v1) as -> by congruence.
  eexists e0, h1, v1, _, _. split; [done|]. cbn zeta.
  split; [done|]. split; [exact Hrun|].
  split; [simpl; by rewrite lookup_insert_eq|]. split; [done|]. split; [done|].
  split; [done|].
  intros e d He Hd Hw Hless.
  destruct (stamp_lookup _ _ _ Hptr Hstamp) as [Hfwd Hbwd].
  destruct (scan_last_min h1 e0 l) as (k & d1 & Hk & Hd1 & Hmin & _).
  { intros e' He'. rewrite Forall_forall in Hcands.
    destruct (cand_ok_inv _ _ (Hcands e' He')) as (d' & Hd' & Hu).
    destruct (Hfwd _ _ Hd') as (d'' & Hd'' & Hage). exists d''. by rewrite Hage. }
  set (victim := (foldl (scan h1) (e0, UINT64_MAX) (e0 :: l)).1) in *.
  destruct (decide (victim = e)) as [|Hdiff]; [done|]. exfalso.
  destruct (Hbwd _ _ Hd1) as (dv & Hdv & Hage).
  destruct (Hfwd _ _ Hd) as (d' & Hd' & Hage').
  apply list_elem_of_lookup_1 in He as [j Hj].
  specialize (Hmin _ _ _ Hj Hd').
  apply list_elem_of_lookup_2 in Hk.
  specialize (Hless victim dv Hk Hdiff Hdv). lia.
Qed.

(** ** [invalidate] *)

Lemma invalidate_run st h rdata d :
  h !! rdata = Some d ->
  invalidate st h rdata
  = Ok (st, <[rdata := mkIPVReplData 0 false (set d) (way d)]> h).
Proof. intros Hd. unfold invalidate, deref. by rewrite Hd. Qed.

(** C9: invalidate returns, sets the record's valid field to false and its
    age to 0, keeps the record's set and way, and changes no other record
    and nothing of the policy object. *)
Theorem invalidate_frame st h rdata d :
  h !! rdata = Some d ->
  exists h',
    invalidate st h rdata = Ok (st, h') /\
    h' !! rdata = Some (mkIPVReplData 0 false (set d) (way d)) /\
    (forall p, p <> rdata -> h' !! p = h !! p).
Proof.
  intros Hd. rewrite (invalidate_run st h rdata d Hd).
  eexists. split; [done|]. split; [by rewrite lookup_insert_eq|].
  intros p Hp. by rewrite lookup_insert_ne.
Qed.

Lemma invalidate_frame_witness :
  ex_heap !! 10%nat = Some (mkIPVReplData 2 true 7 0) /\
  exists h',
    invalidate ex_policy ex_heap 10%nat = Ok (ex_policy, h') /\
    h' !! 10%nat = Some (mkIPVReplData 0 false 7 0) /\
    (forall p, p <> 10%nat -> h' !! p = ex_heap !! p).
Proof.
  assert (ex_heap !! 10%nat = Some (mkIPVReplData 2 true 7 0)) as H1 by reflexivity.
  split; [exact H1|].
  exact (invalidate_frame ex_policy ex_heap 10%nat _ H1).
Defined.

Lemma getVictim_sync_in_bounds_witness :
  policy_ok ex_policy /\ ex_cands_wide <> [] /\
  Forall (cand_ok ex_heap) ex_cands_wide /\
  (forall e v, ~ (0 <= wrap_int (getWay e) < numWays ex_policy) ->
     forall h1, sync (numWays ex_policy) h1 e v = Ok v) /\
  (exists e0 h1 v1 st' victim,
     head ex_cands_wide = Some e0 /\
     let v0 := ages_of (ensureSet ex_policy (getSet e0)) (getSet e0) in
     for_each (sync (numWays ex_policy) h1) ex_cands_wide v0 = Ok v1 /\
     getVictim ex_policy ex_heap ex_cands_wide = Ok (st', h1, victim) /\
     setAges st' !! getSet e0 = Some (normalize v1) /\
     Z.of_nat (length v0) = numWays ex_policy /\
     length v1 = length v0 /\
     (forall i : nat,
        (forall e, e ∈ ex_cands_wide -> 0 <= wrap_int (getWay e) < numWays ex_policy ->
           wrap_int (getWay e) <> Z.of_nat i) ->
        v1 !! i = v0 !! i) /\
     (forall e d, e ∈ ex_cands_wide -> ex_heap !! replacementData e = Some d ->
        ~ (0 <= wrap_int (getWay e) < numWays ex_policy) ->
        (forall e' d', e' ∈ ex_cands_wide -> e' <> e ->
           ex_heap !! replacementData e' = Some d' -> age d < age d') ->
        victim = e)).
Proof.
  assert (policy_ok ex_policy) as H1 by compute_done.
  assert (ex_cands_wide <> []) as H2 by discriminate.
  assert (Forall (cand_ok ex_heap) ex_cands_wide) as H3 by compute_done.
  split; [exact H1|]. split; [exact H2|]. split; [exact H3|].
  exact (getVictim_sync_in_bounds ex_policy ex_heap ex_cands_wide H1 H2 H3).
Defined.

Example getVictim_wide_run :
  match getVictim ex_policy ex_heap ex_cands_wide with
  | Ok (st', _, victim) =>
      victim = mkEntry 7 9 11%nat /\ setAges st' !! 7 = Some [1; 0; 2; 3]
  | _ => False
  end.
Proof. vm_compute. done. Qed.

(** ** The constructor and the insertion schedule *)

Lemma mru_count_range q m : 1 <= q -> 0 <= mru_count q m <= q.
Proof. unfold mru_count. lia. Qed.

(** Without overflow of [quantum * mruPct], the constructor's count is the
    specification's. *)
Lemma mru_count_spec q m :
  1 <= q -> is_int (q * m) -> mru_count q m = spec_mru_count q m.
Proof.
  intros Hq Hint. unfold mru_count, spec_mru_count.
  rewrite wrap_int_id by done.
  destruct (decide (0 <= q * m)) as [Hpos|Hneg].
  - by rewrite Z.quot_div_nonneg by lia.
  - assert (Z.quot (q * m) 100 <= 0) by (apply Z.quot_le_upper_bound; lia).
    assert (q * m / 100 < 0) by (apply Z.div_lt_upper_bound; lia).
    lia.
Qed.

Lemma new_LRUIPVRP_Fatal p : p_numWays p <= 0 -> new_LRUIPVRP p = Fatal.
Proof. intros Hn. unfold new_LRUIPVRP. by rewrite decide_True. Qed.

Lemma new_LRUIPVRP_Ok p :
  0 < p_numWays p ->
  exists st, new_LRUIPVRP p = Ok st /\
    numWays st = p_numWays p /\ mruPct st = p_mru_pct p /\
    quantum st = Z.max 1 (p_quantum p) /\
    insPos st = 0 /\ setAges st = ∅ /\
    Z.of_nat (length (pv st)) = quantum st /\
    pattern_ok st.
Proof.
  intros Hn. unfold new_LRUIPVRP. rewrite decide_False by lia.
  set (q := Z.max 1 (p_quantum p)).
  set (mc := mru_count q (p_mru_pct p)).
  pose proof (mru_count_range q (p_mru_pct p) ltac:(lia)) as Hmc. fold mc in Hmc.
  destruct (fori_pointwise (fun i pv => <[i := 1]> pv) (fun _ _ => 1))
    with (n := Z.to_nat mc) (v := replicate (Z.to_nat q) 0) as [Hlen Hlk];
    [done|rewrite length_replicate; lia|].
  rewrite length_replicate in Hlen.
  eexists. split; [done|]. simpl. split_and!; try done; [lia|].
  intros i Hi. simpl in *. fold q in Hi. fold q mc.
  rewrite (Hlk i 0) by (apply lookup_replicate_2; lia).
  by destruct (decide (i < Z.to_nat mc)%nat), (decide (Z.of_nat i < mc)); try lia.
Qed.

Lemma new_LRUIPVRP_policy_ok p st :
  is_int (p_numWays p) -> is_int (p_mru_pct p) -> is_int (p_quantum p) ->
  new_LRUIPVRP p = Ok st -> policy_ok st.
Proof.
  intros Hn Hm Hq Hrun.
  destruct (decide (p_numWays p <= 0)) as [Hle|Hgt].
  { by rewrite new_LRUIPVRP_Fatal in Hrun. }
  destruct (new_LRUIPVRP_Ok p) as (st' & Hrun' & Hnw & Hmp & Hqu & Hip & Hsa & Hlen & _);
    [lia|].
  assert (st' = st) as -> by congruence.
  unfold policy_ok. rewrite Hlen, Hnw, Hmp, Hqu, Hip, Hsa.
  unfold is_int, INT_MAX in *.
  split_and!; try lia. apply map_Forall_empty.
Qed.

Example new_LRUIPVRP_ex : new_LRUIPVRP ex_params = Ok ex_policy.
Proof. reflexivity. Qed.

(** ** [touch] and [reset] *)

Lemma ensureSet_fields st s :
  mruPct (ensureSet st s) = mruPct st /\ quantum (ensureSet st s) = quantum st /\
  pv (ensureSet st s) = pv st /\ insPos (ensureSet st s) = insPos st.
Proof. unfold ensureSet. by case_decide. Qed.

Lemma promoteToMRU_Undefined v way :
  ~ (0 <= way < Z.of_nat (length v)) -> promoteToMRU v way = Undefined.
Proof. intros Hw. unfold promoteToMRU. by rewrite vec_get_Undefined. Qed.

Lemma insertNearLRU_Undefined v way :
  ~ (0 <= way < Z.of_nat (length v)) -> insertNearLRU v way = Undefined.
Proof.
  intros Hw. unfold insertNearLRU.
  match goal with |- context [fori _ ?b v] => set (body := b) end.
  destruct (fori_pointwise body
              (fun i x => if decide (int_of_size i = way) then x else wrap_u64 (x + 1)))
    with (n := length v) (v := v) as [Hlen _]; [|lia|].
  { intros i w Hi. unfold body.
    destruct (decide (int_of_size i = way)); [|done].
    symmetry. apply list_insert_id. by apply list_lookup_lookup_total_lt. }
  unfold vec_set. rewrite Hlen. by rewrite decide_False.
Qed.

(** Either rule, on a vector of the policy: it returns exactly when the way
    is inside the vector, and keeps the length. *)
Lemma rank_update_Ok (mru : bool) v way :
  Z.of_nat (length v) <= INT_MAX -> 0 <= way < Z.of_nat (length v) ->
  exists v' a,
    (if mru then promoteToMRU v way else insertNearLRU v way) = Ok (v', a) /\
    length v' = length v /\ v' !! Z.to_nat way = Some a.
Proof.
  intros Hsz Hw. destruct mru.
  - destruct (lookup_lt_is_Some_2 v (Z.to_nat way)) as [old Hold]; [lia|].
    destruct (promoteToMRU_spec v way old) as (v' & Hrun & Hlen & Hat & _);
      [lia|lia|done|]. by exists v', (currentMRU v).
  - destruct (insertNearLRU_spec v way) as (v' & Hrun & Hlen & Hat & _);
      [lia|lia|]. by exists v', 0.
Qed.

Lemma next_is_MRU_get st :
  policy_ok st ->
  exists x, vec_get (pv st) (insPos st) = Ok x /\ next_is_MRU st = bool_decide (x = 1).
Proof.
  intros (_ & _ & _ & Hlen & Hpos & _).
  destruct (lookup_lt_is_Some_2 (pv st) (Z.to_nat (insPos st))) as [x Hx]; [lia|].
  exists x. unfold next_is_MRU. by rewrite (vec_get_Ok _ _ x) by (lia || done).
Qed.

(** [reset] on an existing record: with the record's way inside the vector
    it returns, having applied the rule the schedule names, advanced the
    cursor by one modulo [quantum], and stored the new age in the record;
    with the way outside, the vector is indexed out of range. *)
Lemma reset_run st h p d :
  policy_ok st -> h !! p = Some d ->
  let s := set d in
  let w := wrap_int (way d) in
  let v := ages_of (ensureSet st s) s in
  (0 <= w < numWays st ->
   exists v' a,
     (if next_is_MRU st then promoteToMRU v w else insertNearLRU v w) = Ok (v', a) /\
     length v' = length v /\
     reset st h p
     = Ok (mkLRUIPVRP (numWays st) (mruPct st) (quantum st) (pv st)
             ((insPos st + 1) mod quantum st)
             (<[s := v']> (setAges (ensureSet st s))),
           <[p := mkIPVReplData a true (set d) (way d)]> h)) /\
  (~ (0 <= w < numWays st) -> reset st h p = Undefined).
Proof.
  intros Hok Hd s w v.
  destruct (ensureSet_spec st s Hok) as (_ & Hlen & _). fold v in Hlen.
  destruct (ensureSet_fields st s) as (Hmp & Hq & Hpv & Hip).
  destruct (next_is_MRU_get st Hok) as (x & Hx & Hmru).
  pose proof Hok as (Hnw & _ & Hqr & _ & Hpos & _).
  unfold reset, deref. rewrite Hd. cbn [mbind outcome_bind].
  fold s w v. rewrite Hpv, Hip, Hx. cbn [mbind outcome_bind].
  rewrite <- Hmru. split.
  - intros Hw.
    destruct (rank_update_Ok (next_is_MRU st) v w) as (v' & a & Hrun & Hl & _);
      [lia|lia|].
    exists v', a. split; [done|]. split; [done|].
    rewrite Hrun. cbn [mbind outcome_bind]. unfold with_setAges, with_insPos. simpl.
    rewrite ensureSet_numWays, Hmp, Hq, Hpv.
    rewrite wrap_int_id by (unfold is_int, INT_MAX in *; lia).
    rewrite Z.rem_mod_nonneg by lia. done.
  - intros Hw. destruct (next_is_MRU st).
    + rewrite promoteToMRU_Undefined by lia. done.
    + rewrite insertNearLRU_Undefined by lia. done.
Qed.

(** [touch] on an existing record, likewise. *)
Lemma touch_run st h p d :
  policy_ok st -> h !! p = Some d ->
  let s := set d in
  let w := wrap_int (way d) in
  let v := ages_of (ensureSet st s) s in
  (0 <= w < numWays st ->
   exists v' a,
     promoteToMRU v w = Ok (v', a) /\ length v' = length v /\
     touch st h p
     = Ok (with_setAges (ensureSet st s) (<[s := v']> (setAges (ensureSet st s))),
           <[p := mkIPVReplData a true (set d) (way d)]> h)) /\
  (~ (0 <= w < numWays st) -> touch st h p = Undefined).
Proof.
  intros Hok Hd s w v.
  destruct (ensureSet_spec st s Hok) as (_ & Hlen & _). fold v in Hlen.
  pose proof Hok as (Hnw & _).
  unfold touch, deref. rewrite Hd. cbn [mbind outcome_bind].
  fold s w v. split.
  - intros Hw.
    destruct (rank_update_Ok true v w) as (v' & a & Hrun & Hl & Hat); [lia|lia|].
    exists v', a. split; [done|]. split; [done|].
    rewrite Hrun. cbn [mbind outcome_bind].
    rewrite (vec_get_Ok _ _ a) by (lia || done). done.
  - intros Hw. rewrite promoteToMRU_Undefined by lia. done.
Qed.

(** ** The class invariant is kept by every operation *)

Lemma policy_ok_with_setAges st s v :
  policy_ok st -> Z.of_nat (length v) = numWays st ->
  policy_ok (with_setAges (ensureSet st s) (<[s := v]> (setAges (ensureSet st s)))).
Proof.
  intros Hok Hv. pose proof (ensureSet_ok st s Hok) as (? & ? & ? & ? & ? & Hvec).
  rewrite ensureSet_numWays in *.
  unfold policy_ok, with_setAges. simpl. rewrite ensureSet_numWays.
  split_and!; try done; try lia. by apply map_Forall_insert_2.
Qed.

Lemma reset_Ok_inv st h p st' h' :
  policy_ok st -> reset st h p = Ok (st', h') ->
  policy_ok st' /\ numWays st' = numWays st /\ mruPct st' = mruPct st /\
  quantum st' = quantum st /\ pv st' = pv st /\
  insPos st' = (insPos st + 1) mod quantum st.
Proof.
  intros Hok Hrun.
  destruct (h !! p) as [d|] eqn:Hd;
    [|unfold reset, deref in Hrun; by rewrite Hd in Hrun].
  destruct (reset_run st h p d Hok Hd) as [Hin Hout].
  destruct (decide (0 <= wrap_int (way d) < numWays st)) as [Hw|Hw];
    [|by rewrite Hout in Hrun].
  destruct (Hin Hw) as (v' & a & _ & Hl & Hrun'). rewrite Hrun' in Hrun.
  injection Hrun as <- <-. simpl. split_and!; try done.
  destruct (ensureSet_spec st (set d) Hok) as (_ & Hlen & _).
  pose proof (ensureSet_ok st (set d) Hok) as (_ & _ & _ & _ & _ & Hvec).
  rewrite ensureSet_numWays in Hvec.
  destruct Hok as (? & ? & ? & ? & ? & _).
  unfold policy_ok. simpl. split_and!; try done; try lia.
  - apply Z.mod_pos_bound. lia.
  - apply Z.mod_pos_bound. lia.
  - apply map_Forall_insert_2; [lia|done].
Qed.

Lemma touch_Ok_inv st h p st' h' :
  policy_ok st -> touch st h p = Ok (st', h') ->
  policy_ok st' /\ numWays st' = numWays st /\ mruPct st' = mruPct st /\
  quantum st' = quantum st /\ pv st' = pv st /\ insPos st' = insPos st.
Proof.
  intros Hok Hrun.
  destruct (h !! p) as [d|] eqn:Hd;
    [|unfold touch, deref in Hrun; by rewrite Hd in Hrun].
  destruct (touch_run st h p d Hok Hd) as [Hin Hout].
  destruct (decide (0 <= wrap_int (way d) < numWays st)) as [Hw|Hw];
    [|by rewrite Hout in Hrun].
  destruct (Hin Hw) as (v' & a & _ & Hl & Hrun'). rewrite Hrun' in Hrun.
  injection Hrun as <- <-.
  destruct (ensureSet_spec st (set d) Hok) as (_ & Hlen & _).
  destruct (ensureSet_fields st (set d)) as (? & ? & ? & ?).
  split; [apply policy_ok_with_setAges; [done|lia]|].
  simpl. by rewrite ensureSet_numWays.
Qed.

Lemma getVictim_Ok_inv st h cands st' h' victim :
  policy_ok st -> getVictim st h cands = Ok (st', h', victim) ->
  policy_ok st' /\ numWays st' = numWays st /\ mruPct st' = mruPct st /\
  quantum st' = quantum st /\ pv st' = pv st /\ insPos st' = insPos st.
Proof.
  intros Hok Hrun. destruct cands as [|e0 l]; [done|].
  destruct (decide (Forall (fun e => is_Some (h !! replacementData e)) (e0 :: l)))
    as [Hptr|Hnull].
  - rewrite Forall_forall in Hptr.
    destruct (getVictim_run st h e0 l Hok Hptr) as (h1 & v1 & _ & _ & Hl1 & Hrun').
    rewrite Hrun' in Hrun. injection Hrun as <- <- <-.
    destruct (ensureSet_spec st (getSet e0) Hok) as (_ & Hlen & _).
    destruct (ensureSet_fields st (getSet e0)) as (? & ? & ? & ?).
    assert (Z.of_nat (length v1) <= INT_MAX) as Hsz by (destruct Hok; lia).
    destruct (normalize_positions v1 Hsz) as [Hln _].
    split; [apply policy_ok_with_setAges; [done|lia]|].
    simpl. by rewrite ensureSet_numWays.
  - exfalso. unfold getVictim in Hrun.
    destruct (for_each stamp (e0 :: l) h) as [h1| | |] eqn:Hst; try done.
    apply Hnull. clear Hrun Hnull. revert h Hst.
    generalize (e0 :: l) as cs. clear.
    induction cs as [|e cs IH]; intros h Hst; [constructor|].
    simpl in Hst. destruct (h !! replacementData e) as [d|] eqn:Hd;
      [|by rewrite stamp_null in Hst].
    rewrite (stamp_Ok _ _ _ Hd) in Hst. cbn [mbind outcome_bind] in Hst.
    constructor; [by eexists|].
    apply IH in Hst. eapply Forall_impl; [exact Hst|].
    intros e' He'. simpl in He'. apply lookup_insert_is_Some' in He' as [Heq|He']; [|done].
    rewrite <- Heq. by eexists.
Qed.

Lemma pattern_ok_same st st' :
  pattern_ok st -> quantum st' = quantum st -> mruPct st' = mruPct st ->
  pv st' = pv st -> pattern_ok st'.
Proof. unfold pattern_ok. intros Hp -> -> ->. done. Qed.

(** ** The schedule over consecutive fills *)

Lemma next_is_MRU_pattern st :
  policy_ok st -> pattern_ok st ->
  next_is_MRU st = bool_decide (insPos st < mru_count (quantum st) (mruPct st)).
Proof.
  intros Hok Hpat. pose proof Hok as (_ & _ & _ & _ & Hpos & _).
  specialize (Hpat (Z.to_nat (insPos st)) ltac:(lia)).
  rewrite Z2Nat.id in Hpat by lia.
  unfold next_is_MRU. rewrite (vec_get_Ok (pv st) (insPos st) _ ltac:(lia) Hpat).
  case_decide; case_bool_decide; try done; case_bool_decide; done || lia.
Qed.






(** ** Which inputs stop an operation *)

Lemma no_abort_Ok {A} (a : A) : no_abort (Ok a).
Proof. by split. Qed.

Lemma no_abort_Undefined {A} : no_abort (@Undefined A).
Proof. by split. Qed.

Lemma no_abort_bind {A B} (m : outcome A) (f : A -> outcome B) :
  no_abort m -> (forall a, no_abort (f a)) -> no_abort (m ≫= f).
Proof.
  intros [H1 H2] Hf. destruct m as [a| | |]; try done. apply Hf.
Qed.

Lemma no_abort_vec_get {A} (v : list A) i : no_abort (vec_get v i).
Proof.
  unfold vec_get. case_decide; [|apply no_abort_Undefined].
  destruct (v !! Z.to_nat i); [apply no_abort_Ok|apply no_abort_Undefined].
Qed.

Lemma no_abort_vec_set {A} (v : list A) i x : no_abort (vec_set v i x).
Proof.
  unfold vec_set. case_decide; [apply no_abort_Ok|apply no_abort_Undefined].
Qed.

Lemma no_abort_deref h p : no_abort (deref h p).
Proof.
  unfold deref. destruct (h !! p); [apply no_abort_Ok|apply no_abort_Undefined].
Qed.

Lemma no_abort_for_each {A S} (body : A -> S -> outcome S) l :
  (forall x s, no_abort (body x s)) -> forall s, no_abort (for_each body l s).
Proof.
  intros Hbody. induction l as [|x l IH]; intros s; simpl.
  - apply no_abort_Ok.
  - apply no_abort_bind; [apply Hbody|apply IH].
Qed.

Lemma no_abort_promoteToMRU v way : no_abort (promoteToMRU v way).
Proof.
  unfold promoteToMRU.
  apply no_abort_bind; [apply no_abort_vec_get|intros old].
  apply no_abort_bind; [apply no_abort_vec_set|intros v2].
  apply no_abort_bind; [apply no_abort_vec_get|intros r]. apply no_abort_Ok.
Qed.

Lemma no_abort_insertNearLRU v way : no_abort (insertNearLRU v way).
Proof.
  unfold insertNearLRU.
  apply no_abort_bind; [apply no_abort_vec_set|intros v2].
  apply no_abort_bind; [apply no_abort_vec_get|intros r]. apply no_abort_Ok.
Qed.

Lemma no_abort_invalidate st h p : no_abort (invalidate st h p).
Proof.
  unfold invalidate.
  apply no_abort_bind; [apply no_abort_deref|intros d]. apply no_abort_Ok.
Qed.

Lemma no_abort_touch st h p : no_abort (touch st h p).
Proof.
  unfold touch.
  apply no_abort_bind; [apply no_abort_deref|intros d].
  apply no_abort_bind; [apply no_abort_promoteToMRU|intros [v a]].
  apply no_abort_bind; [apply no_abort_vec_get|intros r]. apply no_abort_Ok.
Qed.

Lemma no_abort_reset st h p : no_abort (reset st h p).
Proof.
  unfold reset.
  apply no_abort_bind; [apply no_abort_deref|intros d].
  apply no_abort_bind; [apply no_abort_vec_get|intros x].
  apply no_abort_bind; [|intros [v a]; apply no_abort_Ok].
  case_bool_decide; [apply no_abort_promoteToMRU|apply no_abort_insertNearLRU].
Qed.

(** X19: the two explicit failures, and no other: the constructor stops in
    [fatal_if] exactly when [numWays <= 0] and returns otherwise;
    [getVictim] stops in [panic_if] exactly when it has no candidate;
    no other operation stops in either. *)
Lemma explicit_failures :
  (forall p, new_LRUIPVRP p = Fatal <-> p_numWays p <= 0) /\
  (forall p, 0 < p_numWays p -> is_Ok (new_LRUIPVRP p)) /\
  (forall st h cands, getVictim st h cands = Panic <-> cands = []) /\
  (forall st h cands, getVictim st h cands <> Fatal) /\
  (forall st h p, no_abort (invalidate st h p)) /\
  (forall st h p, no_abort (touch st h p)) /\
  (forall st h p, no_abort (reset st h p)).
Proof.
  split_and!.
  - intros p. split; [|apply new_LRUIPVRP_Fatal].
    intros Hf. destruct (decide (p_numWays p <= 0)) as [|Hgt]; [done|].
    destruct (new_LRUIPVRP_Ok p ltac:(lia)) as (st & Hst & _). congruence.
  - intros p Hp. destruct (new_LRUIPVRP_Ok p Hp) as (st & Hst & _). by exists st.
  - intros st h [|e0 l]; [done|]. split; [|done]. intros Hp. exfalso.
    unfold getVictim in Hp.
    pose proof (no_abort_for_each stamp (e0 :: l)
                  ltac:(intros e h0; unfold stamp;
                        apply no_abort_bind; [apply no_abort_deref|intros; apply no_abort_Ok])
                  h) as [_ Hs].
    destruct (for_each stamp (e0 :: l) h) as [h1| | |]; try done.
    cbn [mbind outcome_bind] in Hp.
    match type of Hp with context [for_each ?b ?c ?v] =>
      pose proof (no_abort_for_each b c
                    ltac:(intros e v0; unfold sync; case_decide; [|apply no_abort_Ok];
                          destruct (h1 !! replacementData e);
                          [apply no_abort_vec_set|apply no_abort_Ok])
                    v) as [_ Hy];
      destruct (for_each b c v); done
    end.
  - intros st h [|e0 l]; [done|]. intros Hp.
    unfold getVictim in Hp.
    pose proof (no_abort_for_each stamp (e0 :: l)
                  ltac:(intros e h0; unfold stamp;
                        apply no_abort_bind; [apply no_abort_deref|intros; apply no_abort_Ok])
                  h) as [Hs _].
    destruct (for_each stamp (e0 :: l) h) as [h1| | |]; try done.
    cbn [mbind outcome_bind] in Hp.
    match type of Hp with context [for_each ?b ?c ?v] =>
      pose proof (no_abort_for_each b c
                    ltac:(intros e v0; unfold sync; case_decide; [|apply no_abort_Ok];
                          destruct (h1 !! replacementData e);
                          [apply no_abort_vec_set|apply no_abort_Ok])
                    v) as [Hy _];
      destruct (for_each b c v); done
    end.
  - apply no_abort_invalidate.
  - apply no_abort_touch.
  - apply no_abort_reset.
Qed.

(** Inputs every operation accepts: a policy that satisfies its class
    invariant, non-null record pointers, and, for [touch] and [reset], a
    stamped way inside [0, numWays). *)
Lemma accepted_inputs st h :
  policy_ok st ->
  (forall p, is_Some (h !! p) -> is_Ok (invalidate st h p)) /\
  (forall p d, h !! p = Some d -> 0 <= wrap_int (way d) < numWays st ->
     is_Ok (touch st h p) /\ is_Ok (reset st h p)) /\
  (forall cands, cands <> [] ->
     (forall e, e ∈ cands -> is_Some (h !! replacementData e)) ->
     is_Ok (getVictim st h cands)).
Proof.
  intros Hok. split_and!.
  - intros p [d Hd]. rewrite (invalidate_run st h p d Hd). by eexists.
  - intros p d Hd Hw. split.
    + destruct (touch_run st h p d Hok Hd) as [Hin _].
      destruct (Hin Hw) as (v' & a & _ & _ & Hrun). by eexists.
    + destruct (reset_run st h p d Hok Hd) as [Hin _].
      destruct (Hin Hw) as (v' & a & _ & _ & Hrun). by eexists.
  - intros [|e0 l] Hne Hptr; [done|].
    destruct (getVictim_run st h e0 l Hok Hptr) as (h1 & v1 & _ & _ & _ & Hrun).
    by eexists.
Qed.

(** [touch] and [reset] index the vector with the stamped way unchecked. *)
Lemma way_out_of_range st h p d :
  policy_ok st -> h !! p = Some d ->
  ~ (0 <= wrap_int (way d) < numWays st) ->
  touch st h p = Undefined /\ reset st h p = Undefined.
Proof.
  intros Hok Hd Hw. split.
  - destruct (touch_run st h p d Hok Hd) as [_ Hout]. by apply Hout.
  - destruct (reset_run st h p d Hok Hd) as [_ Hout]. by apply Hout.
Qed.

(** C8, at the failing input: a two-way policy is handed one candidate in
    way 5. getVictim accepts it (the synchronization skips the way), stamps
    way 5 into the record and returns the candidate; the fill that follows,
    reset on the victim's record, indexes the two-element vector at 5, and
    so does touch. *)
Theorem reset_after_wide_victim :
  exists st0 st1 h1 victim,
    new_LRUIPVRP ex_params_narrow = Ok st0 /\
    getVictim st0 ex_heap_fresh [mkEntry 0 5 ex_rdata_fresh] = Ok (st1, h1, victim) /\
    victim = mkEntry 0 5 ex_rdata_fresh /\
    h1 !! ex_rdata_fresh = Some (mkIPVReplData 0 true 0 5) /\
    setAges st1 !! 0 = Some [0; 1] /\
    reset st1 h1 (replacementData victim) = Undefined /\
    touch st1 h1 (replacementData victim) = Undefined.
Proof.
  eexists _, _, _, _. split; [reflexivity|]. split; [reflexivity|].
  split; [reflexivity|]. split; [reflexivity|]. split; [reflexivity|].
  split; reflexivity.
Qed.

(** ** The schedule: statement for the whole life of a policy object *)


(** C6, at the failing input: with quantum = 30000000 and mruPct = 100 the
    product 3000000000 does not fit an int; the constructor's count is 0
    where the specification's is 30000000, no slot of the pattern is marked,
    and no fill is ever an MRU insert. *)
Theorem schedule_overflow :
  mru_count 30000000 100 = 0 /\
  spec_mru_count 30000000 100 = 30000000 /\
  exists st,
    new_LRUIPVRP (mkParams 4 100 30000000) = Ok st /\
    quantum st = 30000000 /\
    (forall i : nat, Z.of_nat i < 30000000 -> pv st !! i = Some 0) /\
    (forall st', policy_ok st' -> pattern_ok st' ->
       quantum st' = 30000000 -> mruPct st' = 100 -> next_is_MRU st' = false).
Proof.
  assert (mru_count 30000000 100 = 0) as Hmc by (vm_compute; reflexivity).
  split; [exact Hmc|]. split; [vm_compute; reflexivity|].
  destruct (new_LRUIPVRP_Ok (mkParams 4 100 30000000) ltac:(cbn; lia))
    as (st & Hrun & _ & Hmp & Hq & _ & _ & _ & Hpat).
  cbn [p_quantum p_mru_pct] in Hq, Hmp.
  assert (Z.max 1 30000000 = 30000000) as Hmax by (vm_compute; reflexivity).
  rewrite Hmax in Hq.
  exists st. split; [exact Hrun|]. split; [exact Hq|]. split.
  - intros i Hi. rewrite (Hpat i) by (rewrite Hq; exact Hi).
    rewrite Hq, Hmp, Hmc. rewrite decide_False by lia. reflexivity.
  - intros st' Hok' Hpat' Hq' Hmp'.
    rewrite (next_is_MRU_pattern st' Hok' Hpat'), Hq', Hmp', Hmc.
    pose proof Hok' as (_ & _ & _ & _ & Hpos & _).
    apply bool_decide_eq_false. lia.
Qed.

(** The same loss with a small period and a percentage far above 100. *)
Example schedule_overflow_small :
  pv <$> (match new_LRUIPVRP (mkParams 4 2000000000 2) with
          | Ok st => Some st | _ => None end) = Some [0; 0] /\
  spec_mru_count 2 2000000000 = 2.
Proof. split; vm_compute; reflexivity. Qed.

(** Scenario A, fill by fill. *)
Example scenario_A :
  match reset_all ex_policy
          (<[20%nat := mkIPVReplData 0 true 7 0]>
             (<[21%nat := mkIPVReplData 1 true 7 1]> ∅)) [20%nat; 21%nat] with
  | Ok (bs, st', _) =>
      bs = [true; false] /\ setAges st' !! 7 = Some [4; 0; 2; 3] /\ insPos st' = 0
  | _ => False
  end.
Proof. vm_compute. done. Qed.

(** ** Every reachable state satisfies the class invariant *)

Lemma step_invariant s s' :
  step s s' ->
  policy_ok (fst s) -> pattern_ok (fst s) ->
  (policy_ok (fst s') /\ pattern_ok (fst s')) /\
  quantum (fst s') = quantum (fst s) /\ mruPct (fst s') = mruPct (fst s) /\
  numWays (fst s') = numWays (fst s).
Proof.
  intros Hstep Hok Hpat. destruct Hstep as
    [st h|st h r st' h' Hrun|st h r st' h' Hrun|st h r st' h' Hrun
    |st h cs st' h' vc Hrun]; simpl in *.
  - done.
  - destruct (h !! r) as [d|] eqn:Hd;
      [|unfold invalidate, deref in Hrun; by rewrite Hd in Hrun].
    rewrite (invalidate_run st h r d Hd) in Hrun. by injection Hrun as <- _.
  - destruct (touch_Ok_inv _ _ _ _ _ Hok Hrun) as (? & ? & ? & ? & ? & ?).
    split_and!; try done. by eapply pattern_ok_same.
  - destruct (reset_Ok_inv _ _ _ _ _ Hok Hrun) as (? & ? & ? & ? & ? & ?).
    split_and!; try done. by eapply pattern_ok_same.
  - destruct (getVictim_Ok_inv _ _ _ _ _ _ Hok Hrun) as (? & ? & ? & ? & ? & ?).
    split_and!; try done. by eapply pattern_ok_same.
Qed.

(** X17: in every state a policy object can reach from its constructor
    through the five operations, numWays is positive, the pattern is quantum
    long and holds its ones first, the cursor is inside the pattern, every
    age vector has numWays entries, and numWays, mruPct and quantum are the
    constructor's. *)
Lemma reachable_invariant p s :
  is_int (p_numWays p) -> is_int (p_mru_pct p) -> is_int (p_quantum p) ->
  reachable p s ->
  policy_ok (fst s) /\ pattern_ok (fst s) /\
  numWays (fst s) = p_numWays p /\ mruPct (fst s) = p_mru_pct p /\
  quantum (fst s) = Z.max 1 (p_quantum p).
Proof.
  intros Hn Hm Hq (st0 & Hnew & Hrtc).
  assert (0 < p_numWays p) as Hpos.
  { destruct (decide (p_numWays p <= 0)); [|lia].
    by rewrite new_LRUIPVRP_Fatal in Hnew. }
  destruct (new_LRUIPVRP_Ok p Hpos) as (st0' & Hnew' & Hnw & Hmp & Hqu & _ & _ & _ & Hpat).
  assert (st0' = st0) as -> by congruence.
  pose proof (new_LRUIPVRP_policy_ok p st0 Hn Hm Hq Hnew) as Hok.
  remember (st0, ∅ : heap) as s0 eqn:Hs0.
  assert (policy_ok (fst s0) /\ pattern_ok (fst s0) /\
          numWays (fst s0) = p_numWays p /\ mruPct (fst s0) = p_mru_pct p /\
          quantum (fst s0) = Z.max 1 (p_quantum p)) as Hinv by (by subst s0).
  clear Hs0 Hnew Hnew' Hok Hpat Hnw Hmp Hqu.
  induction Hrtc as [s|s s1 s2 Hstep _ IH]; [done|].
  destruct Hinv as (Hok & Hpat & Hnw & Hmp & Hqu).
  destruct (step_invariant _ _ Hstep Hok Hpat) as ((Hok1 & Hpat1) & Hq1 & Hm1 & Hn1).
  apply IH. split_and!; congruence || done.
Qed.

(** Scenario B: a hit on the entry that holds the least age lifts it to the
    set's maximum and shifts the entries above its old rank down by one. *)
Example scenario_B :
  match touch ex_policy (<[20%nat := mkIPVReplData 0 true 7 0]> ∅) 20%nat with
  | Ok (st', h') =>
      setAges st' !! 7 = Some [3; 0; 1; 2] /\
      h' !! 20%nat = Some (mkIPVReplData 3 true 7 0)
  | _ => False
  end.
Proof. vm_compute. done. Qed.

(** Scenario C: an invalidated entry enters the next selection with age 0. *)
Example scenario_C :
  match invalidate ex_policy ex_heap 13%nat with
  | Ok (st1, h1) =>
      match getVictim st1 h1 ex_cands with
      | Ok (st2, _, victim) =>
          victim = mkEntry 7 3 13%nat /\ setAges st2 !! 7 = Some [3; 0; 1; 2]
      | _ => False
      end
  | _ => False
  end.
Proof. vm_compute. done. Qed.

(** * Further properties of the code *)

(** ** [ensureSet] on any policy object *)

(** X1: ensureSet leaves every other set's vector and every other member
    alone; a set that is absent, or whose vector is shorter than numWays,
    gets the ascending vector 0..numWays-1; a vector of at least numWays
    entries is kept as it is; and a second call changes nothing. *)
Theorem ensureSet_repairs st s :
  0 < numWays st <= INT_MAX ->
  Z.of_nat (length (ages_of st s)) <= INT_MAX ->
  (forall s', s' <> s -> setAges (ensureSet st s) !! s' = setAges st !! s') /\
  (Z.of_nat (length (ages_of st s)) < numWays st ->
   setAges (ensureSet st s) !! s
   = Some (Z.of_nat <$> seq 0 (Z.to_nat (numWays st)))) /\
  (numWays st <= Z.of_nat (length (ages_of st s)) ->
   setAges (ensureSet st s) !! s = Some (ages_of st s)) /\
  numWays st <= Z.of_nat (length (ages_of (ensureSet st s) s)) /\
  ensureSet (ensureSet st s) s = ensureSet st s.
Proof.
  intros Hnw Hsz.
  assert (forall st0, 0 < numWays st0 <= INT_MAX ->
            Z.of_nat (length (ages_of st0 s)) <= INT_MAX ->
            (Z.of_nat (length (ages_of st0 s)) < numWays st0 ->
             ensureSet st0 s
             = with_setAges st0 (<[s := Z.of_nat <$> seq 0 (Z.to_nat (numWays st0))]>
                                   (setAges st0))) /\
            (numWays st0 <= Z.of_nat (length (ages_of st0 s)) ->
             ensureSet st0 s
             = with_setAges st0 (<[s := ages_of st0 s]> (setAges st0)))) as Hcases.
  { intros st0 Hn0 Hs0. unfold ensureSet, ages_of in *.
    rewrite int_of_size_id by done. split; intros Hlt.
    - rewrite decide_True by done.
      by rewrite fori_fill by (by rewrite length_resize).
    - by rewrite decide_False by lia. }
  destruct (Hcases st Hnw Hsz) as [Hshort Hlong].
  assert (exists v, ensureSet st s = with_setAges st (<[s := v]> (setAges st)) /\
            numWays st <= Z.of_nat (length v) <= INT_MAX /\
            (Z.of_nat (length (ages_of st s)) < numWays st ->
             v = Z.of_nat <$> seq 0 (Z.to_nat (numWays st))) /\
            (numWays st <= Z.of_nat (length (ages_of st s)) -> v = ages_of st s))
    as (v & Heq & Hv & Hvs & Hvl).
  { destruct (decide (Z.of_nat (length (ages_of st s)) < numWays st)) as [Hlt|Hge].
    - eexists. split; [by apply Hshort|].
      rewrite length_fmap, length_seq. split; [lia|]. split; [done|lia].
    - eexists. split; [apply Hlong; lia|]. split; [lia|]. split; [lia|done]. }
  rewrite Heq. unfold with_setAges. simpl. split_and!.
  - intros s' Hs'. by rewrite lookup_insert_ne.
  - intros Hlt. by rewrite lookup_insert_eq, Hvs.
  - intros Hge. by rewrite lookup_insert_eq, Hvl.
  - unfold ages_of. simpl. rewrite lookup_insert_eq. simpl. lia.
  - set (st1 := mkLRUIPVRP (numWays st) (mruPct st) (quantum st) (pv st)
                  (insPos st) (<[s := v]> (setAges st))).
    assert (ages_of st1 s = v) as Hv1
      by (unfold ages_of, st1; simpl; by rewrite lookup_insert_eq).
    destruct (Hcases st1) as [_ Hlong1]; [done|rewrite Hv1; lia|].
    rewrite Hlong1 by (rewrite Hv1; simpl; lia).
    rewrite Hv1. unfold with_setAges, st1. simpl. by rewrite insert_insert_eq.
Qed.

Lemma ensureSet_repairs_witness :
  setAges (ensureSet ex_policy 7) !! 7 = Some [0; 1; 2; 3] /\
  ensureSet (ensureSet ex_policy 7) 7 = ensureSet ex_policy 7.
Proof.
  assert (0 < numWays ex_policy <= INT_MAX) as H1 by compute_done.
  assert (Z.of_nat (length (ages_of ex_policy 7)) <= INT_MAX) as H2 by compute_done.
  destruct (ensureSet_repairs ex_policy 7 H1 H2) as (_ & Hshort & _ & _ & Hidem).
  split; [|exact Hidem]. apply Hshort. compute_done.
Defined.

(** ** [currentMRU] on any vector *)

(** X2: currentMRU returns 0 on the empty vector; otherwise it is at least
    every entry, never negative, and, unless it is 0, an entry of the
    vector. *)
Theorem currentMRU_is_max (v : list Z) :
  currentMRU [] = 0 /\
  0 <= currentMRU v /\
  (forall x, x ∈ v -> x <= currentMRU v) /\
  (currentMRU v = 0 \/ currentMRU v ∈ v).
Proof.
  split; [done|]. unfold currentMRU.
  destruct (currentMRU_foldl v 0) as (H1 & H2 & H3). by split_and!.
Qed.

(** ** [promoteToMRU] on any vector of ages *)

(** What a promotion leaves in each slot, for ages in the [uint64_t]
    range. *)
Lemma promoteToMRU_u64 (v : list Z) (way : Z) :
  Forall is_u64 v ->
  Z.of_nat (length v) <= INT_MAX ->
  0 <= way < Z.of_nat (length v) ->
  exists v' old,
    v !! Z.to_nat way = Some old /\
    promoteToMRU v way = Ok (v', currentMRU v) /\
    length v' = length v /\
    v' !! Z.to_nat way = Some (currentMRU v) /\
    (forall i x, i <> Z.to_nat way -> v !! i = Some x ->
       v' !! i = Some (if decide (x > old) then x - 1 else x)) /\
    (forall x, x ∈ v -> 0 <= x <= currentMRU v).
Proof.
  intros Hu Hsz Hway. rewrite Forall_forall in Hu.
  destruct (lookup_lt_is_Some_2 v (Z.to_nat way)) as [old Hold]; [lia|].
  destruct (promoteToMRU_spec v way old) as (v' & Hrun & Hlen & Hat & Hoth);
    [lia|lia|done|].
  destruct (currentMRU_foldl v 0) as (_ & Hmax & _). fold (currentMRU v) in Hmax.
  exists v', old. split_and!; try done.
  - intros i x Hi Hx. rewrite (Hoth _ _ Hi Hx).
    destruct (decide (x > old)); [|done].
    pose proof (Hu x ltac:(by eapply list_elem_of_lookup_2)) as Hxu.
    pose proof (Hu old ltac:(by eapply list_elem_of_lookup_2)) as Hou.
    rewrite wrap_u64_id; [done|]. unfold is_u64 in *. lia.
  - intros x Hx. specialize (Hu x Hx). specialize (Hmax x Hx).
    unfold is_u64 in Hu. lia.
Qed.

(** X3: on any vector of uint64 ages and a way inside it, promoteToMRU
    returns the largest age of the vector (0 at least) and stores it in the
    chosen way, so that the chosen way is at least every entry of the
    result; the ages stay in the uint64 range, and the order of two other
    ways is never reversed. *)
Theorem promoteToMRU_monotone (v : list Z) (way : Z) :
  Forall is_u64 v ->
  Z.of_nat (length v) <= INT_MAX ->
  0 <= way < Z.of_nat (length v) ->
  exists v',
    promoteToMRU v way = Ok (v', currentMRU v) /\
    length v' = length v /\
    v' !! Z.to_nat way = Some (currentMRU v) /\
    Forall is_u64 v' /\
    (forall x, x ∈ v' -> x <= currentMRU v) /\
    (forall (i j : nat) x y x' y',
       i <> Z.to_nat way -> j <> Z.to_nat way ->
       v !! i = Some x -> v !! j = Some y ->
       v' !! i = Some x' -> v' !! j = Some y' ->
       x <= y -> x' <= y').
Proof.
  intros Hu Hsz Hway.
  destruct (promoteToMRU_u64 v way Hu Hsz Hway)
    as (v' & old & Hold & Hrun & Hlen & Hat & Hoth & Hmax).
  pose proof (Hmax old ltac:(by eapply list_elem_of_lookup_2)) as Hob.
  assert (forall i x', v' !! i = Some x' -> 0 <= x' <= currentMRU v) as Hb.
  { intros i x' Hx'. destruct (decide (i = Z.to_nat way)) as [->|Hne].
    - assert (x' = currentMRU v) by congruence. lia.
    - destruct (lookup_same_length v v' i x' Hlen Hx') as [x Hx].
      rewrite (Hoth _ _ Hne Hx) in Hx'. injection Hx' as <-.
      pose proof (Hmax x ltac:(by eapply list_elem_of_lookup_2)).
      destruct (decide (x > old)); lia. }
  exists v'. split_and!; try done.
  - rewrite Forall_forall. intros x' [i Hi]%list_elem_of_lookup_1.
    specialize (Hb _ _ Hi). rewrite Forall_forall in Hu.
    pose proof (Hu old ltac:(by eapply list_elem_of_lookup_2)).
    destruct (currentMRU_foldl v 0) as (_ & _ & [H0|Hin]);
      fold (currentMRU v) in *; unfold is_u64 in *.
    + lia.
    + specialize (Hu _ Hin). unfold is_u64 in Hu. lia.
  - intros x' [i Hi]%list_elem_of_lookup_1. by apply (Hb _ _ Hi).
  - intros i j x y x' y' Hi Hj Hx Hy Hx' Hy' Hle.
    rewrite (Hoth _ _ Hi Hx) in Hx'. rewrite (Hoth _ _ Hj Hy) in Hy'.
    injection Hx' as <-. injection Hy' as <-.
    destruct (decide (x > old)), (decide (y > old)); lia.
Qed.

Lemma promoteToMRU_monotone_witness :
  exists v', promoteToMRU [5; 5; 1; 9] 2 = Ok (v', 9) /\ Forall is_u64 v'.
Proof.
  assert (Forall is_u64 [5; 5; 1; 9]) as H1 by compute_done.
  assert (Z.of_nat (length [5; 5; 1; 9]) <= INT_MAX) as H2 by compute_done.
  assert (0 <= 2 < Z.of_nat (length [5; 5; 1; 9])) as H3 by compute_done.
  destruct (promoteToMRU_monotone [5; 5; 1; 9] 2 H1 H2 H3)
    as (v' & Hrun & _ & _ & Hu & _).
  exists v'. split; [exact Hrun|exact Hu].
Defined.

(** X4: promoting the same way a second time changes nothing: the second
    call returns the same vector and the same age. *)
Theorem promoteToMRU_idempotent (v : list Z) (way : Z) :
  Forall is_u64 v ->
  Z.of_nat (length v) <= INT_MAX ->
  0 <= way < Z.of_nat (length v) ->
  exists v' a,
    promoteToMRU v way = Ok (v', a) /\ promoteToMRU v' way = Ok (v', a).
Proof.
  intros Hu Hsz Hway.
  destruct (promoteToMRU_u64 v way Hu Hsz Hway)
    as (v' & old & Hold & Hrun & Hlen & Hat & Hoth & Hmax).
  set (a := currentMRU v) in *.
  assert (forall i x', v' !! i = Some x' -> 0 <= x' <= a) as Hb.
  { intros i x' Hx'. destruct (decide (i = Z.to_nat way)) as [->|Hne].
    - assert (x' = a) by congruence.
      pose proof (Hmax old ltac:(by eapply list_elem_of_lookup_2)). lia.
    - destruct (lookup_same_length v v' i x' Hlen Hx') as [x Hx].
      rewrite (Hoth _ _ Hne Hx) in Hx'. injection Hx' as <-.
      pose proof (Hmax x ltac:(by eapply list_elem_of_lookup_2)).
      pose proof (Hmax old ltac:(by eapply list_elem_of_lookup_2)).
      destruct (decide (x > old)); lia. }
  assert (currentMRU v' = a) as Hmru.
  { destruct (currentMRU_foldl v' 0) as (H0 & Hge & Hin).
    fold (currentMRU v') in *.
    pose proof (Hge a ltac:(by eapply list_elem_of_lookup_2)).
    destruct Hin as [Hz|[i Hi]%list_elem_of_lookup_1]; [|specialize (Hb _ _ Hi); lia].
    pose proof (Hb _ _ Hat). lia. }
  destruct (promoteToMRU_spec v' way a) as (v'' & Hrun2 & Hlen2 & Hat2 & Hoth2);
    [lia|lia|done|].
  rewrite Hmru in Hrun2, Hat2.
  exists v', a. split; [done|]. rewrite Hrun2. do 2 f_equal.
  apply list_eq. intros i. destruct (decide (i = Z.to_nat way)) as [->|Hne].
  - congruence.
  - destruct (v' !! i) as [x'|] eqn:Hx'.
    + rewrite (Hoth2 _ _ Hne Hx'). specialize (Hb _ _ Hx').
      by rewrite decide_False by lia.
    + apply lookup_ge_None in Hx'. apply lookup_ge_None. lia.
Qed.

Lemma promoteToMRU_idempotent_witness :
  exists v' a,
    promoteToMRU [5; 5; 1; 9] 2 = Ok (v', a) /\ promoteToMRU v' 2 = Ok (v', a).
Proof.
  assert (Forall is_u64 [5; 5; 1; 9]) as H1 by compute_done.
  assert (Z.of_nat (length [5; 5; 1; 9]) <= INT_MAX) as H2 by compute_done.
  assert (0 <= 2 < Z.of_nat (length [5; 5; 1; 9])) as H3 by compute_done.
  exact (promoteToMRU_idempotent [5; 5; 1; 9] 2 H1 H2 H3).
Defined.

(** ** [normalize] on a vector that is already dense *)

Lemma dense_perm_index v x :
  dense_perm v -> 0 <= x < Z.of_nat (length v) -> exists i : nat, v !! i = Some x.
Proof.
  intros Hv Hx. apply list_elem_of_lookup_1. by apply dense_perm_elem.
Qed.

(** Two dense permutations of one length that order the ways alike are
    equal. *)
Lemma dense_perm_same_order (v w : list Z) :
  dense_perm v -> dense_perm w -> length w = length v ->
  (forall (i j : nat) x y x' y',
     v !! i = Some x -> v !! j = Some y -> w !! i = Some x' -> w !! j = Some y' ->
     x < y -> x' < y') ->
  w = v.
Proof.
  intros Hv Hw Hlen Hord.
  assert (forall (m : nat) (i : nat) x y,
            v !! i = Some x -> w !! i = Some y -> x = Z.of_nat m -> x <= y) as Hlow.
  { induction m as [|m IH]; intros i x y Hx Hy Hm.
    - pose proof (dense_perm_range _ _ _ Hw Hy). lia.
    - pose proof (dense_perm_range _ _ _ Hv Hx) as Hxr.
      destruct (dense_perm_index v (Z.of_nat m) Hv ltac:(lia)) as [j Hj].
      destruct (lookup_lt_is_Some_2 w j) as [yj Hyj];
        [apply lookup_lt_Some in Hj; lia|].
      pose proof (IH j _ _ Hj Hyj eq_refl).
      pose proof (Hord j i _ _ _ _ Hj Hx Hyj Hy ltac:(lia)). lia. }
  assert (forall (m : nat) (i : nat) x y,
            v !! i = Some x -> w !! i = Some y ->
            x = Z.of_nat (length v) - 1 - Z.of_nat m -> y <= x) as Hup.
  { induction m as [|m IH]; intros i x y Hx Hy Hm.
    - pose proof (dense_perm_range _ _ _ Hw Hy). lia.
    - pose proof (dense_perm_range _ _ _ Hv Hx) as Hxr.
      destruct (dense_perm_index v (x + 1) Hv ltac:(lia)) as [j Hj].
      destruct (lookup_lt_is_Some_2 w j) as [yj Hyj];
        [apply lookup_lt_Some in Hj; lia|].
      pose proof (IH j _ _ Hj Hyj ltac:(lia)).
      pose proof (Hord i j _ _ _ _ Hx Hj Hy Hyj ltac:(lia)). lia. }
  apply list_eq. intros i. destruct (v !! i) as [x|] eqn:Hx.
  - destruct (lookup_lt_is_Some_2 w i) as [y Hy];
      [apply lookup_lt_Some in Hx; lia|].
    pose proof (dense_perm_range _ _ _ Hv Hx) as Hxr.
    pose proof (Hlow (Z.to_nat x) i x y Hx Hy ltac:(lia)).
    pose proof (Hup (Z.to_nat (Z.of_nat (length v) - 1 - x)) i x y Hx Hy ltac:(lia)).
    rewrite Hy. f_equal. lia.
  - apply lookup_ge_None in Hx. apply lookup_ge_None. lia.
Qed.

(** X5: normalize leaves a vector that already holds 0..size-1, each once,
    exactly as it is; hence normalizing twice is normalizing once. *)
Theorem normalize_idempotent (v : list Z) :
  Z.of_nat (length v) <= INT_MAX ->
  (dense_perm v -> normalize v = v) /\
  normalize (normalize v) = normalize v.
Proof.
  intros Hn.
  assert (forall u, Z.of_nat (length u) <= INT_MAX -> dense_perm u -> normalize u = u)
    as Hfix.
  { intros u Hu Hd. destruct (normalize_positions u Hu) as [Hlen _].
    apply dense_perm_same_order; [done|by apply normalize_dense|done|].
    intros i j x y x' y' Hx Hy Hx' Hy' Hlt.
    eapply (normalize_order u i j); eauto. }
  split; [by apply Hfix|].
  destruct (normalize_positions v Hn) as [Hlen _].
  apply Hfix; [lia|by apply normalize_dense].
Qed.

Lemma normalize_idempotent_witness :
  normalize (normalize [7; 7; 0; 3]) = normalize [7; 7; 0; 3].
Proof.
  assert (Z.of_nat (length [7; 7; 0; 3]) <= INT_MAX) as Hn by compute_done.
  exact (proj2 (normalize_idempotent [7; 7; 0; 3] Hn)).
Defined.

(** X6: the normalize that follows a near-LRU insert on a dense permutation
    repairs it: the result holds 0..n-1 each once, the inserted way holds 0,
    and the other ways keep the order they had before the insert. *)
Theorem insertNearLRU_then_normalize (v : list Z) (way : Z) :
  Z.of_nat (length v) <= INT_MAX ->
  dense_perm v ->
  0 <= way < Z.of_nat (length v) ->
  exists v1,
    insertNearLRU v way = Ok (v1, 0) /\
    dense_perm (normalize v1) /\
    length (normalize v1) = length v /\
    normalize v1 !! Z.to_nat way = Some 0 /\
    (forall (i j : nat) x y x' y',
       i <> Z.to_nat way -> j <> Z.to_nat way ->
       v !! i = Some x -> v !! j = Some y ->
       normalize v1 !! i = Some x' -> normalize v1 !! j = Some y' ->
       x < y -> 0 < x' < y').
Proof.
  intros Hsz Hv Hway.
  destruct (insertNearLRU_spec v way Hsz Hway) as (v1 & Hrun & Hlen & Hat & Hoth).
  assert (Z.of_nat (length v1) <= INT_MAX) as Hsz1 by lia.
  destruct (normalize_positions v1 Hsz1) as [Hln _].
  pose proof (normalize_dense v1 Hsz1) as Hd.
  assert (forall i x, i <> Z.to_nat way -> v !! i = Some x ->
            v1 !! i = Some (x + 1) /\ 0 < x + 1) as Hoth'.
  { intros i x Hi Hx. rewrite (Hoth _ _ Hi Hx).
    pose proof (dense_perm_range _ _ _ Hv Hx).
    rewrite wrap_u64_id; [split; [done|lia]|].
    unfold is_u64, UINT64_MAX, INT_MAX in *. lia. }
  destruct (lookup_lt_is_Some_2 (normalize v1) (Z.to_nat way)) as [r Hr]; [lia|].
  assert (forall (i : nat) x', i <> Z.to_nat way -> normalize v1 !! i = Some x' -> r < x')
    as Hbelow.
  { intros i x' Hi Hx'.
    destruct (lookup_lt_is_Some_2 v i) as [x Hx];
      [apply lookup_lt_Some in Hx'; lia|].
    destruct (Hoth' _ _ Hi Hx) as [Hx1 Hpos].
    eapply (normalize_order v1 (Z.to_nat way) i); eauto. }
  assert (r = 0) as ->.
  { destruct (dense_perm_index (normalize v1) 0 Hd ltac:(lia)) as [i Hi].
    destruct (decide (i = Z.to_nat way)) as [->|Hne]; [congruence|].
    specialize (Hbelow _ _ Hne Hi). pose proof (dense_perm_range _ _ _ Hd Hr). lia. }
  exists v1. split_and!; try done; [lia|].
  intros i j x y x' y' Hi Hj Hx Hy Hx' Hy' Hlt.
  destruct (Hoth' _ _ Hi Hx) as [Hx1 _]. destruct (Hoth' _ _ Hj Hy) as [Hy1 _].
  split; [exact (Hbelow i x' Hi Hx')|].
  eapply (normalize_order v1 i j); eauto. left. lia.
Qed.

Lemma insertNearLRU_then_normalize_witness :
  exists v1,
    insertNearLRU [3; 0; 1; 2] 1 = Ok (v1, 0) /\
    dense_perm (normalize v1) /\ normalize v1 !! Z.to_nat 1 = Some 0.
Proof.
  assert (Z.of_nat (length [3; 0; 1; 2]) <= INT_MAX) as H1 by compute_done.
  assert (dense_perm [3; 0; 1; 2]) as H2 by (unfold dense_perm; compute_done).
  assert (0 <= 1 < Z.of_nat (length [3; 0; 1; 2])) as H3 by compute_done.
  destruct (insertNearLRU_then_normalize [3; 0; 1; 2] 1 H1 H2 H3)
    as (v1 & Hrun & Hd & _ & Hat & _).
  exists v1. split; [exact Hrun|]. split; [exact Hd|exact Hat].
Defined.

(** ** What a hit and a fill leave behind *)

Lemma ensureSet_other st s s' :
  policy_ok st -> s' <> s -> setAges (ensureSet st s) !! s' = setAges st !! s'.
Proof.
  intros Hok Hne. destruct (ensureSet_spec st s Hok) as (Heq & _).
  rewrite Heq. simpl. by rewrite lookup_insert_ne.
Qed.

(** X7: touch on a record whose stamped way is inside the set returns; it
    stores in the record the largest age the set's vector held before the
    hit (numWays-1 when the vector was dense), marks the record valid, keeps
    its coordinates, writes the same age in the vector at that way, and
    changes no other record, no other set's vector, and neither the cursor
    nor the configuration. *)
Theorem touch_effect st h rdata d :
  policy_ok st -> h !! rdata = Some d ->
  0 <= wrap_int (way d) < numWays st ->
  let v0 := ages_of (ensureSet st (set d)) (set d) in
  exists st' v',
    touch st h rdata
    = Ok (st', <[rdata := mkIPVReplData (currentMRU v0) true (set d) (way d)]> h) /\
    setAges st' !! set d = Some v' /\
    length v' = length v0 /\
    v' !! Z.to_nat (wrap_int (way d)) = Some (currentMRU v0) /\
    (dense_perm v0 -> currentMRU v0 = numWays st - 1) /\
    (forall s', s' <> set d -> setAges st' !! s' = setAges st !! s') /\
    insPos st' = insPos st /\ pv st' = pv st /\
    numWays st' = numWays st /\ quantum st' = quantum st.
Proof.
  intros Hok Hd Hw v0.
  destruct (touch_run st h rdata d Hok Hd) as [Hin _].
  destruct (Hin Hw) as (v' & a & Hprom & Hlen & Hrun).
  destruct (ensureSet_spec st (set d) Hok) as (_ & Hl0 & _). fold v0 in Hl0, Hprom, Hlen.
  destruct (ensureSet_fields st (set d)) as (_ & Hq & Hpv & Hip).
  pose proof Hok as (Hnw & _).
  destruct (lookup_lt_is_Some_2 v0 (Z.to_nat (wrap_int (way d)))) as [old Hold]; [lia|].
  destruct (promoteToMRU_spec v0 (wrap_int (way d)) old)
    as (v'' & Hprom' & _ & Hat & _); [lia|lia|done|].
  rewrite Hprom in Hprom'. injection Hprom' as <- ->.
  rewrite Hrun. eexists _, v'. split; [done|]. simpl.
  split; [by rewrite lookup_insert_eq|]. split; [done|]. split; [done|].
  split.
  { intros Hdense. rewrite currentMRU_dense; [lia|done|].
    intros Hnil. rewrite Hnil in Hl0. simpl in Hl0. lia. }
  split.
  { intros s' Hs'. rewrite lookup_insert_ne by done. by apply ensureSet_other. }
  by rewrite ensureSet_numWays.
Qed.

Lemma touch_effect_witness :
  exists st' v',
    touch ex_policy ex_heap 12%nat
    = Ok (st', <[12%nat := mkIPVReplData 3 true 7 2]> ex_heap) /\
    setAges st' !! 7 = Some v'.
Proof.
  assert (policy_ok ex_policy) as H1 by compute_done.
  assert (ex_heap !! 12%nat = Some (mkIPVReplData 0 true 7 2)) as H2 by reflexivity.
  assert (0 <= wrap_int (way (mkIPVReplData 0 true 7 2)) < numWays ex_policy) as H3
    by compute_done.
  destruct (touch_effect ex_policy ex_heap 12%nat _ H1 H2 H3)
    as (st' & v' & Hrun & Hv & _).
  exists st', v'. split; [exact Hrun|exact Hv].
Defined.

(** X8: reset on a record whose stamped way is inside the set returns; the
    age it stores in the record and in the vector at that way is 0 when the
    schedule's slot says near-LRU and the largest age the vector held before
    the fill when it says MRU; the record is marked valid and keeps its
    coordinates; the cursor moves to the next slot, wrapping at quantum; no
    other record, no other set's vector and no configuration value
    changes. *)
Theorem reset_effect st h rdata d :
  policy_ok st -> h !! rdata = Some d ->
  0 <= wrap_int (way d) < numWays st ->
  let v0 := ages_of (ensureSet st (set d)) (set d) in
  let a := if next_is_MRU st then currentMRU v0 else 0 in
  exists st' v',
    reset st h rdata
    = Ok (st', <[rdata := mkIPVReplData a true (set d) (way d)]> h) /\
    setAges st' !! set d = Some v' /\
    length v' = length v0 /\
    v' !! Z.to_nat (wrap_int (way d)) = Some a /\
    (forall s', s' <> set d -> setAges st' !! s' = setAges st !! s') /\
    insPos st' = (insPos st + 1) mod quantum st /\ pv st' = pv st /\
    numWays st' = numWays st /\ quantum st' = quantum st.
Proof.
  intros Hok Hd Hw v0 a.
  destruct (reset_run st h rdata d Hok Hd) as [Hin _].
  destruct (Hin Hw) as (v' & a' & Hupd & Hlen & Hrun).
  destruct (ensureSet_spec st (set d) Hok) as (_ & Hl0 & _). fold v0 in Hl0, Hupd, Hlen.
  pose proof Hok as (Hnw & _).
  assert (a' = a /\ v' !! Z.to_nat (wrap_int (way d)) = Some a) as [-> Hat].
  { subst a. destruct (next_is_MRU st).
    - destruct (lookup_lt_is_Some_2 v0 (Z.to_nat (wrap_int (way d)))) as [old Hold];
        [lia|].
      destruct (promoteToMRU_spec v0 (wrap_int (way d)) old)
        as (v'' & Hprom' & _ & Hat & _); [lia|lia|done|].
      rewrite Hupd in Hprom'. by injection Hprom' as <- ->.
    - destruct (insertNearLRU_spec v0 (wrap_int (way d)))
        as (v'' & Hins' & _ & Hat & _); [lia|lia|].
      rewrite Hupd in Hins'. by injection Hins' as <- ->. }
  rewrite Hrun. eexists _, v'. split; [done|]. simpl.
  split; [by rewrite lookup_insert_eq|]. split; [done|]. split; [done|].
  split; [|done].
  intros s' Hs'. rewrite lookup_insert_ne by done. by apply ensureSet_other.
Qed.

Lemma reset_effect_witness :
  exists st' v',
    reset ex_policy ex_heap 12%nat
    = Ok (st', <[12%nat := mkIPVReplData 3 true 7 2]> ex_heap) /\
    setAges st' !! 7 = Some v' /\ insPos st' = 1.
Proof.
  assert (policy_ok ex_policy) as H1 by compute_done.
  assert (ex_heap !! 12%nat = Some (mkIPVReplData 0 true 7 2)) as H2 by reflexivity.
  assert (0 <= wrap_int (way (mkIPVReplData 0 true 7 2)) < numWays ex_policy) as H3
    by compute_done.
  destruct (reset_effect ex_policy ex_heap 12%nat _ H1 H2 H3)
    as (st' & v' & Hrun & Hv & _ & _ & _ & Hip & _).
  exists st', v'. split; [exact Hrun|]. split; [exact Hv|exact Hip].
Defined.

(** ** More on [getVictim] *)

Lemma foldl_scan_elem h l : forall acc,
  fst (foldl (scan h) acc l) = fst acc \/ fst (foldl (scan h) acc l) ∈ l.
Proof.
  induction l as [|x l IH] using rev_ind; intros acc; [by left|].
  rewrite foldl_app. simpl. set (r := foldl (scan h) acc l).
  assert (scan h r x = r \/ fst (scan h r x) = x) as Hcase.
  { unfold scan. destruct (h !! replacementData x) as [d|]; [|by left].
    case_decide; [by right|by left]. }
  destruct Hcase as [Hs|Hs]; rewrite Hs.
  - destruct (IH acc) as [Ha|Hin]; [left; exact Ha|].
    right. apply elem_of_app. by left.
  - right. apply elem_of_app. right. by left.
Qed.

Lemma getVictim_victim_elem st h cands st' h' victim :
  getVictim st h cands = Ok (st', h', victim) -> victim ∈ cands.
Proof.
  destruct cands as [|e0 l]; [done|]. unfold getVictim.
  destruct (for_each stamp (e0 :: l) h) as [h1| | |]; try done.
  cbn [mbind outcome_bind].
  match goal with |- context [for_each ?b ?c ?v] =>
    destruct (for_each b c v) as [v1| | |]; try done end.
  cbn [mbind outcome_bind]. intros [= _ _ <-].
  pose proof (foldl_scan_elem h1 (e0 :: l) (e0, UINT64_MAX)) as Hel.
  simpl in Hel |- *. destruct Hel as [Ha|Hin]; [rewrite Ha; by left|done].
Qed.

(** X9: the victim and the records after the call are the same whatever the
    policy object holds: getVictim chooses from the candidates' stored ages
    alone, never from the Age Table, the cursor or the configuration. *)
Theorem getVictim_ignores_table st1 st2 h cands :
  policy_ok st1 -> policy_ok st2 -> cands <> [] ->
  (forall e, e ∈ cands -> is_Some (h !! replacementData e)) ->
  exists st1' st2' h' victim,
    getVictim st1 h cands = Ok (st1', h', victim) /\
    getVictim st2 h cands = Ok (st2', h', victim).
Proof.
  intros Hok1 Hok2 Hne Hptr. destruct cands as [|e0 l]; [done|].
  destruct (getVictim_run st1 h e0 l Hok1 Hptr) as (h1 & v1 & Hst1 & _ & _ & Hrun1).
  destruct (getVictim_run st2 h e0 l Hok2 Hptr) as (h2 & v2 & Hst2 & _ & _ & Hrun2).
  assert (h2 = h1) as -> by congruence.
  rewrite Hrun1, Hrun2. by eexists _, _, _, _.
Qed.

Lemma getVictim_ignores_table_witness :
  exists st1' st2' h' victim,
    getVictim ex_policy ex_heap ex_cands = Ok (st1', h', victim) /\
    getVictim (ensureSet ex_policy 7) ex_heap ex_cands = Ok (st2', h', victim).
Proof.
  assert (policy_ok ex_policy) as H1 by compute_done.
  assert (policy_ok (ensureSet ex_policy 7)) as H2 by compute_done.
  assert (ex_cands <> []) as H3 by discriminate.
  assert (forall e, e ∈ ex_cands -> is_Some (ex_heap !! replacementData e)) as H4.
  { intros e He. unfold ex_cands in He.
    repeat (apply elem_of_cons in He as [->|He]; [by eexists|]).
    by apply elem_of_nil in He. }
  exact (getVictim_ignores_table ex_policy (ensureSet ex_policy 7) ex_heap ex_cands
           H1 H2 H3 H4).
Defined.

Lemma NoDup_fmap_eq {A B} (f : A -> B) (l : list A) x y :
  NoDup (f <$> l) -> x ∈ l -> y ∈ l -> f x = f y -> x = y.
Proof.
  intros Hnd [i Hi]%list_elem_of_lookup_1 [j Hj]%list_elem_of_lookup_1 Hf.
  assert (i = j) as ->; [|congruence].
  eapply NoDup_lookup; [exact Hnd| |].
  - by rewrite list_lookup_fmap, Hi.
  - by rewrite list_lookup_fmap, Hj, Hf.
Qed.

(** X10: when the candidates point to distinct records, getVictim leaves in
    each candidate's record that candidate's own set and way, with the same
    age and valid: the coordinates touch and reset read are the entry's. *)
Theorem getVictim_stamps_own st h cands :
  policy_ok st -> cands <> [] ->
  NoDup (replacementData <$> cands) ->
  (forall e, e ∈ cands -> is_Some (h !! replacementData e)) ->
  exists st' h' victim,
    getVictim st h cands = Ok (st', h', victim) /\
    forall e d, e ∈ cands -> h !! replacementData e = Some d ->
      h' !! replacementData e
      = Some (mkIPVReplData (age d) true (getSet e) (getWay e)).
Proof.
  intros Hok Hne Hnd Hptr. destruct cands as [|e0 l]; [done|].
  destruct (getVictim_run st h e0 l Hok Hptr) as (h1 & v1 & Hstamp & _ & _ & Hrun).
  rewrite Hrun. eexists _, h1, _. split; [done|].
  destruct (for_each_stamp (e0 :: l) h Hptr) as (h1' & Hstamp' & _ & Hsome).
  assert (h1' = h1) as -> by congruence.
  intros e d He Hd. destruct (Hsome _ _ Hd) as (d1 & Hd1 & Hage & Hcase).
  destruct Hcase as [[_ Hno]|(Hv & e' & He' & Hr & Hs & Hw)];
    [by destruct (Hno e He)|].
  assert (e' = e) as -> by (by eapply (NoDup_fmap_eq replacementData)).
  rewrite Hd1. f_equal. destruct d1. simpl in *. congruence.
Qed.

Lemma getVictim_stamps_own_witness :
  exists st' h' victim,
    getVictim ex_policy ex_heap ex_cands_wide = Ok (st', h', victim) /\
    h' !! 11%nat = Some (mkIPVReplData 0 true 7 9).
Proof.
  assert (policy_ok ex_policy) as H1 by compute_done.
  assert (ex_cands_wide <> []) as H2 by discriminate.
  assert (NoDup (replacementData <$> ex_cands_wide)) as H3 by compute_done.
  assert (forall e, e ∈ ex_cands_wide -> is_Some (ex_heap !! replacementData e)) as H4.
  { intros e He. unfold ex_cands_wide in He.
    repeat (apply elem_of_cons in He as [->|He]; [by eexists|]).
    by apply elem_of_nil in He. }
  destruct (getVictim_stamps_own ex_policy ex_heap ex_cands_wide H1 H2 H3 H4)
    as (st' & h' & victim & Hrun & Hrec).
  exists st', h', victim. split; [exact Hrun|].
  apply (Hrec (mkEntry 7 9 11%nat) (mkIPVReplData 0 false 7 1)); [|reflexivity].
  unfold ex_cands_wide. apply elem_of_cons. right. apply elem_of_cons. by left.
Defined.

Lemma sync_Ok_length nw h e v v' :
  sync nw h e v = Ok v' -> length v' = length v.
Proof.
  unfold sync. case_decide; [|by intros [= <-]].
  destruct (h !! replacementData e); [|by intros [= <-]].
  unfold vec_set. case_decide; [|done]. intros [= <-]. by rewrite length_insert.
Qed.

(** With candidates in distinct ways, the synchronization leaves in each
    in-range candidate way that candidate's stored age. *)
Lemma for_each_sync_writes nw h cands : forall v v1,
  NoDup ((fun e => wrap_int (getWay e)) <$> cands) ->
  nw <= Z.of_nat (length v) ->
  for_each (sync nw h) cands v = Ok v1 ->
  forall e d, e ∈ cands -> h !! replacementData e = Some d ->
    0 <= wrap_int (getWay e) < nw ->
    v1 !! Z.to_nat (wrap_int (getWay e)) = Some (age d).
Proof.
  induction cands as [|e0 l IH]; intros v v1 Hnd Hlen Hrun e d He Hd Hw.
  { by apply elem_of_nil in He. }
  rewrite fmap_cons in Hnd. apply NoDup_cons in Hnd as [Hfresh Hnd].
  simpl in Hrun. destruct (sync nw h e0 v) as [v'| | |] eqn:Hs; try done.
  cbn [mbind outcome_bind] in Hrun.
  pose proof (sync_Ok_length _ _ _ _ _ Hs) as Hl'.
  apply elem_of_cons in He as [->|He]; [|eapply (IH v'); eauto; lia].
  unfold sync in Hs. rewrite decide_True, Hd in Hs by lia.
  rewrite vec_set_Ok in Hs by lia. injection Hs as <-.
  destruct (for_each_sync nw h l (<[Z.to_nat (wrap_int (getWay e0)) := age d]> v))
    as (v1' & Hrun' & _ & Hkeep); [rewrite length_insert; lia|].
  assert (v1' = v1) as -> by congruence.
  rewrite Hkeep; [apply list_lookup_insert_eq; lia|].
  intros e' He' Hw' Heq. apply Hfresh. apply list_elem_of_fmap.
  exists e'. split; [lia|done].
Qed.

(** X11: with candidates in distinct ways, the vector getVictim leaves for
    the candidates' set ranks them as their stored ages do: a candidate with
    a smaller stored age has a smaller rank, and of two candidates with the
    same stored age the one in the lower way has the smaller rank (ways
    outside 0..numWays-1 take no part); every other set's vector, the cursor
    and the configuration are unchanged. *)
Theorem getVictim_resync st h cands :
  policy_ok st -> cands <> [] ->
  NoDup ((fun e => wrap_int (getWay e)) <$> cands) ->
  (forall e, e ∈ cands -> is_Some (h !! replacementData e)) ->
  exists st' h' victim e0 v,
    getVictim st h cands = Ok (st', h', victim) /\
    head cands = Some e0 /\
    setAges st' !! getSet e0 = Some v /\
    (forall e1 e2 d1 d2 r1 r2,
       e1 ∈ cands -> e2 ∈ cands ->
       0 <= wrap_int (getWay e1) < numWays st ->
       0 <= wrap_int (getWay e2) < numWays st ->
       h !! replacementData e1 = Some d1 -> h !! replacementData e2 = Some d2 ->
       v !! Z.to_nat (wrap_int (getWay e1)) = Some r1 ->
       v !! Z.to_nat (wrap_int (getWay e2)) = Some r2 ->
       age d1 < age d2 \/
       (age d1 = age d2 /\ wrap_int (getWay e1) < wrap_int (getWay e2)) ->
       r1 < r2) /\
    (forall s', s' <> getSet e0 -> setAges st' !! s' = setAges st !! s') /\
    insPos st' = insPos st /\ pv st' = pv st /\
    numWays st' = numWays st /\ quantum st' = quantum st.
Proof.
  intros Hok Hne Hnd Hptr. destruct cands as [|e0 l]; [done|].
  destruct (getVictim_run st h e0 l Hok Hptr)
    as (h1 & v1 & Hstamp & Hsync & Hl1 & Hrun).
  destruct (ensureSet_spec st (getSet e0) Hok) as (_ & Hlen & _).
  destruct (ensureSet_fields st (getSet e0)) as (_ & Hq & Hpv & Hip).
  destruct (stamp_lookup _ _ _ Hptr Hstamp) as [Hfwd _].
  pose proof Hok as (Hnw & _).
  assert (Z.of_nat (length v1) <= INT_MAX) as Hsz by lia.
  rewrite Hrun. eexists _, h1, _, e0, (normalize v1).
  split; [done|]. split; [done|]. simpl.
  split; [by rewrite lookup_insert_eq|]. split; [|split].
  - intros e1 e2 d1 d2 r1 r2 He1 He2 Hw1 Hw2 Hd1 Hd2 Hr1 Hr2 Hlt.
    destruct (Hfwd _ _ Hd1) as (d1' & Hd1' & Ha1).
    destruct (Hfwd _ _ Hd2) as (d2' & Hd2' & Ha2).
    assert (v1 !! Z.to_nat (wrap_int (getWay e1)) = Some (age d1')) as Hv1.
    { eapply for_each_sync_writes;
        [exact Hnd| |exact Hsync|exact He1|exact Hd1'|exact Hw1]. lia. }
    assert (v1 !! Z.to_nat (wrap_int (getWay e2)) = Some (age d2')) as Hv2.
    { eapply for_each_sync_writes;
        [exact Hnd| |exact Hsync|exact He2|exact Hd2'|exact Hw2]. lia. }
    apply (normalize_order v1 (Z.to_nat (wrap_int (getWay e1)))
             (Z.to_nat (wrap_int (getWay e2))) (age d1') (age d2') r1 r2
             Hsz Hv1 Hv2 Hr1 Hr2).
    lia.
  - intros s' Hs'. rewrite lookup_insert_ne by done. by apply ensureSet_other.
  - by rewrite ensureSet_numWays.
Qed.

Lemma getVictim_resync_witness :
  exists st' h' victim e0 v,
    getVictim ex_policy ex_heap ex_cands = Ok (st', h', victim) /\
    head ex_cands = Some e0 /\ setAges st' !! getSet e0 = Some v.
Proof.
  assert (policy_ok ex_policy) as H1 by compute_done.
  assert (ex_cands <> []) as H2 by discriminate.
  assert (NoDup ((fun e => wrap_int (getWay e)) <$> ex_cands)) as H3 by compute_done.
  assert (forall e, e ∈ ex_cands -> is_Some (ex_heap !! replacementData e)) as H4.
  { intros e He. unfold ex_cands in He.
    repeat (apply elem_of_cons in He as [->|He]; [by eexists|]).
    by apply elem_of_nil in He. }
  destruct (getVictim_resync ex_policy ex_heap ex_cands H1 H2 H3 H4)
    as (st' & h' & victim & e0 & v & Hrun & Hhd & Hv & _).
  exists st', h', victim, e0, v. split; [exact Hrun|]. split; [exact Hhd|exact Hv].
Defined.

(** ** Operations in sequence *)

(** X12: the fill that follows a selection. When the candidates point to
    distinct records and sit in ways inside 0..numWays-1, getVictim returns
    one of them and reset on its record returns too: it works on the
    victim's own set, leaves the record valid with the victim's set and way,
    moves the cursor one slot, and touches no other record and no other
    set's vector. *)
Theorem fill_after_selection st h cands :
  policy_ok st -> cands <> [] ->
  NoDup (replacementData <$> cands) ->
  (forall e, e ∈ cands -> is_Some (h !! replacementData e)) ->
  (forall e, e ∈ cands -> 0 <= wrap_int (getWay e) < numWays st) ->
  exists st1 h1 victim st2 h2 a v,
    getVictim st h cands = Ok (st1, h1, victim) /\
    victim ∈ cands /\
    reset st1 h1 (replacementData victim) = Ok (st2, h2) /\
    h2 !! replacementData victim
    = Some (mkIPVReplData a true (getSet victim) (getWay victim)) /\
    (forall p, p <> replacementData victim -> h2 !! p = h1 !! p) /\
    setAges st2 !! getSet victim = Some v /\
    Z.of_nat (length v) = numWays st /\
    (forall s', s' <> getSet victim -> setAges st2 !! s' = setAges st1 !! s') /\
    insPos st2 = (insPos st + 1) mod quantum st.
Proof.
  intros Hok Hne Hnd Hptr Hways. destruct cands as [|e0 l]; [done|].
  destruct (getVictim_run st h e0 l Hok Hptr) as (h1 & v1 & Hstamp & _ & _ & Hrun).
  pose proof (getVictim_victim_elem _ _ _ _ _ _ Hrun) as Hin.
  destruct (getVictim_Ok_inv _ _ _ _ _ _ Hok Hrun) as (Hok1 & Hnw1 & _ & Hq1 & _ & Hip1).
  set (st1 := with_setAges (ensureSet st (getSet e0))
                (<[getSet e0 := normalize v1]> (setAges (ensureSet st (getSet e0))))) in *.
  set (victim := (foldl (scan h1) (e0, UINT64_MAX) (e0 :: l)).1) in *.
  clearbody st1 victim.
  destruct (Hptr victim Hin) as [d Hd].
  destruct (for_each_stamp (e0 :: l) h Hptr) as (h1' & Hstamp' & _ & Hsome).
  assert (h1' = h1) as -> by congruence.
  destruct (Hsome _ _ Hd) as (d1 & Hd1 & Hage & Hcase).
  destruct Hcase as [[_ Hno]|(Hv & e' & He' & Hr & Hs & Hw)];
    [by destruct (Hno victim Hin)|].
  assert (e' = victim) as -> by (by eapply (NoDup_fmap_eq replacementData)).
  destruct (reset_run st1 h1 (replacementData victim) d1 Hok1 Hd1) as [Hfill _].
  cbn zeta in Hfill. rewrite Hs, Hw, Hnw1 in Hfill.
  destruct (Hfill (Hways victim Hin)) as (v' & a & _ & Hlen & Hreset).
  destruct (ensureSet_spec st1 (getSet victim) Hok1) as (_ & Hl1 & _).
  rewrite Hrun. eexists st1, h1, victim, _, _, a, v'.
  split; [done|]. split; [done|]. split; [exact Hreset|].
  split; [by rewrite lookup_insert_eq|].
  split; [intros p Hp; by rewrite lookup_insert_ne|]. simpl.
  split; [by rewrite lookup_insert_eq|]. split; [lia|].
  split; [|by rewrite Hip1, Hq1].
  intros s' Hs'. rewrite lookup_insert_ne by done. by apply ensureSet_other.
Qed.

Lemma fill_after_selection_witness :
  exists st1 h1 victim st2 h2,
    getVictim ex_policy ex_heap ex_cands = Ok (st1, h1, victim) /\
    reset st1 h1 (replacementData victim) = Ok (st2, h2).
Proof.
  assert (policy_ok ex_policy) as H1 by compute_done.
  assert (ex_cands <> []) as H2 by discriminate.
  assert (NoDup (replacementData <$> ex_cands)) as H3 by compute_done.
  assert (forall e, e ∈ ex_cands -> is_Some (ex_heap !! replacementData e)) as H4.
  { intros e He. unfold ex_cands in He.
    repeat (apply elem_of_cons in He as [->|He]; [by eexists|]).
    by apply elem_of_nil in He. }
  assert (forall e, e ∈ ex_cands -> 0 <= wrap_int (getWay e) < numWays ex_policy) as H5.
  { intros e He. unfold ex_cands in He.
    repeat (apply elem_of_cons in He as [->|He]; [compute_done|]).
    by apply elem_of_nil in He. }
  destruct (fill_after_selection ex_policy ex_heap ex_cands H1 H2 H3 H4 H5)
    as (st1 & h1 & victim & st2 & h2 & a & v & Hrun & _ & Hreset & _).
  exists st1, h1, victim, st2, h2. split; [exact Hrun|exact Hreset].
Defined.

(** X13: the selection that follows an invalidation. After invalidate on a
    candidate's record, getVictim returns a candidate whose stored age is 0
    and that is the invalidated candidate or one listed after it: the
    invalidated entry is never passed over for an entry with a positive
    age. *)
Theorem victim_after_invalidate st h cands (k : nat) e :
  policy_ok st -> Forall (cand_ok h) cands -> cands !! k = Some e ->
  exists h0 st' h' victim (k' : nat) dv,
    invalidate st h (replacementData e) = Ok (st, h0) /\
    getVictim st h0 cands = Ok (st', h', victim) /\
    cands !! k' = Some victim /\ (k <= k')%nat /\
    h0 !! replacementData victim = Some dv /\ age dv = 0.
Proof.
  intros Hok Hcands Hk. rewrite Forall_forall in Hcands.
  pose proof (list_elem_of_lookup_2 _ _ _ Hk) as He.
  destruct (cand_ok_inv _ _ (Hcands e He)) as (d & Hd & _).
  rewrite (invalidate_run st h _ d Hd).
  set (h0 := <[replacementData e := mkIPVReplData 0 false (set d) (way d)]> h).
  assert (forall e', e' ∈ cands ->
            exists d', h0 !! replacementData e' = Some d' /\ is_u64 (age d')) as Hrec0.
  { intros e' He'. unfold h0.
    destruct (decide (replacementData e = replacementData e')) as [Heq|Hneq].
    - rewrite Heq, lookup_insert_eq. eexists. split; [done|]. simpl. compute_done.
    - rewrite lookup_insert_ne by done. by apply cand_ok_inv, Hcands. }
  assert (forall e', e' ∈ cands -> is_Some (h0 !! replacementData e')) as Hptr0.
  { intros e' He'. destruct (Hrec0 e' He') as (d' & -> & _). by eexists. }
  destruct cands as [|e0 l]; [done|].
  destruct (getVictim_run st h0 e0 l Hok Hptr0) as (h1 & v1 & Hstamp & _ & _ & Hrun).
  destruct (stamp_lookup _ _ _ Hptr0 Hstamp) as [Hfwd Hbwd].
  destruct (scan_last_min h1 e0 l) as (k' & d1 & Hk' & Hd1 & Hmin & Hlast).
  { intros e' He'. destruct (Hrec0 e' He') as (d' & Hd' & Hu).
    destruct (Hfwd _ _ Hd') as (d'' & Hd'' & Hage). exists d''. by rewrite Hage. }
  destruct (Hbwd _ _ Hd1) as (dv & Hdv & Hage).
  assert (h0 !! replacementData e = Some (mkIPVReplData 0 false (set d) (way d))) as He0
    by (unfold h0; by rewrite lookup_insert_eq).
  destruct (Hfwd _ _ He0) as (de & Hde & Hage0). simpl in Hage0.
  pose proof (Hmin _ _ _ Hk Hde) as Hle.
  destruct (Hrec0 _ (list_elem_of_lookup_2 _ _ _ Hk')) as (dv' & Hdv' & Hu).
  assert (dv' = dv) as -> by congruence. unfold is_u64 in Hu.
  eexists h0, _, h1, _, k', dv.
  split; [done|]. split; [exact Hrun|]. split; [done|]. split; [|split; [done|lia]].
  destruct (decide (k <= k')%nat) as [|Hgt]; [done|]. exfalso.
  pose proof (Hlast _ _ _ Hk ltac:(lia) Hde). lia.
Qed.

Lemma victim_after_invalidate_witness :
  exists h0 st' h' victim,
    invalidate ex_policy ex_heap 13%nat = Ok (ex_policy, h0) /\
    getVictim ex_policy h0 ex_cands = Ok (st', h', victim).
Proof.
  assert (policy_ok ex_policy) as H1 by compute_done.
  assert (Forall (cand_ok ex_heap) ex_cands) as H2 by compute_done.
  assert (ex_cands !! 3%nat = Some (mkEntry 7 3 13%nat)) as H3 by reflexivity.
  destruct (victim_after_invalidate ex_policy ex_heap ex_cands 3 _ H1 H2 H3)
    as (h0 & st' & h' & victim & k' & dv & Hinv & Hrun & _).
  exists h0, st', h', victim. split; [exact Hinv|exact Hrun].
Defined.

(** ** [instantiateEntry] and records that were never selected *)

(** X14: instantiateEntry returns the address of a new record, one no
    existing record has, holding age 0, valid false, set 0 and way 0, and
    changes no existing record; a touch on that record before any selection
    stamped it therefore promotes way 0 of set 0, whichever slot the entry
    occupies. *)
Theorem instantiateEntry_fresh st (h : heap) :
  policy_ok st ->
  let p := fst (instantiateEntry h) in
  let h' := snd (instantiateEntry h) in
  h !! p = None /\
  h' !! p = Some (mkIPVReplData 0 false 0 0) /\
  (forall q, q <> p -> h' !! q = h !! q) /\
  exists st' v,
    touch st h' p = Ok (st', <[p := mkIPVReplData (currentMRU v) true 0 0]> h') /\
    v = ages_of (ensureSet st 0) 0 /\
    (forall s, s <> 0 -> setAges st' !! s = setAges st !! s).
Proof.
  intros Hok p h'. unfold instantiateEntry in p, h'. simpl in p, h'.
  assert (h !! p = None) as Hfresh
    by (apply not_elem_of_dom; unfold p; apply is_fresh).
  assert (h' !! p = Some (mkIPVReplData 0 false 0 0)) as Hnew
    by (unfold h'; by rewrite lookup_insert_eq).
  split; [done|]. split; [done|].
  split; [intros q Hq; unfold h'; by rewrite lookup_insert_ne|].
  destruct (touch_run st h' p _ Hok Hnew) as [Hin _]. cbn zeta in Hin. simpl in Hin.
  pose proof Hok as (Hnw & _).
  change (wrap_int 0) with 0 in *.
  destruct Hin as (v' & a & Hprom & Hlen & Hrun); [lia|].
  destruct (ensureSet_spec st 0 Hok) as (_ & Hl0 & _).
  destruct (lookup_lt_is_Some_2 (ages_of (ensureSet st 0) 0) (Z.to_nat 0))
    as [old Hold]; [lia|].
  destruct (promoteToMRU_spec (ages_of (ensureSet st 0) 0) 0 old)
    as (v'' & Hprom' & _); [lia|done|done|].
  rewrite Hprom in Hprom'. injection Hprom' as <- ->.
  rewrite Hrun. eexists _, _. split; [done|]. split; [done|].
  intros s Hs. simpl. rewrite lookup_insert_ne by done. by apply ensureSet_other.
Qed.

Lemma instantiateEntry_fresh_witness :
  ex_heap !! fst (instantiateEntry ex_heap) = None /\
  snd (instantiateEntry ex_heap) !! fst (instantiateEntry ex_heap)
  = Some (mkIPVReplData 0 false 0 0).
Proof.
  assert (policy_ok ex_policy) as H1 by compute_done.
  destruct (instantiateEntry_fresh ex_policy ex_heap H1) as (Hf & Hn & _).
  split; [exact Hf|exact Hn].
Defined.

(** ** The constructor on every parameter triple *)

(** X15: for every numWays > 0 the constructor returns a policy with no age
    vector, the cursor at 0, a period of max(1, quantum), and a pattern of
    that length made of a run of ones followed by zeros; the number of
    ones lies between 0 and the period whatever mruPct is, and equals
    clamp(period * mruPct / 100, 0, period) when the product fits an int. *)
Theorem constructor_pattern p :
  0 < p_numWays p ->
  exists st mc,
    new_LRUIPVRP p = Ok st /\
    numWays st = p_numWays p /\
    quantum st = Z.max 1 (p_quantum p) /\
    insPos st = 0 /\ setAges st = ∅ /\
    0 <= mc <= quantum st /\
    pv st = replicate (Z.to_nat mc) 1 ++ replicate (Z.to_nat (quantum st - mc)) 0 /\
    (is_int (quantum st * p_mru_pct p) ->
     mc = spec_mru_count (quantum st) (p_mru_pct p)).
Proof.
  intros Hn.
  destruct (new_LRUIPVRP_Ok p Hn)
    as (st & Hrun & Hnw & Hmp & Hq & Hip & Hsa & Hlen & Hpat).
  set (mc := mru_count (quantum st) (mruPct st)).
  pose proof (mru_count_range (quantum st) (mruPct st) ltac:(lia)) as Hmc. fold mc in Hmc.
  exists st, mc. split_and!; try done; try lia.
  - apply list_eq. intros i.
    destruct (decide (Z.of_nat i < quantum st)) as [Hi|Hi].
    + rewrite (Hpat i Hi). fold mc. case_decide.
      * rewrite lookup_app_l by (rewrite length_replicate; lia).
        symmetry. apply lookup_replicate_2. lia.
      * rewrite lookup_app_r by (rewrite length_replicate; lia).
        symmetry. apply lookup_replicate_2. rewrite length_replicate. lia.
    + rewrite !lookup_ge_None_2; [done| |lia].
      rewrite length_app, !length_replicate. lia.
  - intros Hfit. unfold mc. rewrite Hmp. apply mru_count_spec; [lia|done].
Qed.

Lemma constructor_pattern_witness :
  exists st mc,
    new_LRUIPVRP (mkParams 8 75 (-3)) = Ok st /\ quantum st = 1 /\ 0 <= mc <= quantum st.
Proof.
  assert (0 < p_numWays (mkParams 8 75 (-3))) as H1 by compute_done.
  destruct (constructor_pattern (mkParams 8 75 (-3)) H1)
    as (st & mc & Hrun & _ & Hq & _ & _ & Hmc & _).
  exists st, mc. split; [exact Hrun|]. split; [exact Hq|exact Hmc].
Defined.

(** ** What no operation does *)

Lemma for_each_stamp_Ok_ptrs cs : forall h h1,
  for_each stamp cs h = Ok h1 ->
  forall e, e ∈ cs -> is_Some (h !! replacementData e).
Proof.
  induction cs as [|e0 cs IH]; intros h h1 Hst e He.
  { by apply elem_of_nil in He. }
  simpl in Hst. destruct (h !! replacementData e0) as [d|] eqn:Hd;
    [|by rewrite stamp_null in Hst].
  rewrite (stamp_Ok _ _ _ Hd) in Hst. cbn [mbind outcome_bind] in Hst.
  apply elem_of_cons in He as [->|He]; [by eexists|].
  pose proof (IH _ _ Hst e He) as Hs.
  apply lookup_insert_is_Some' in Hs as [Heq|Hs]; [|done].
  rewrite <- Heq. by eexists.
Qed.

(** X16: one operation of the host, whichever it is, never changes numWays,
    mruPct, quantum or the pattern; it leaves the cursor where it was or
    moves it one slot forward modulo quantum; it changes the vector of at
    most one set; and it never removes a record. *)
Theorem step_frame st h st' h' :
  step (st, h) (st', h') -> policy_ok st ->
  (numWays st' = numWays st /\ mruPct st' = mruPct st /\
   quantum st' = quantum st /\ pv st' = pv st) /\
  (insPos st' = insPos st \/ insPos st' = (insPos st + 1) mod quantum st) /\
  (exists s, forall s', s' <> s -> setAges st' !! s' = setAges st !! s') /\
  (forall p, is_Some (h !! p) -> is_Some (h' !! p)).
Proof.
  intros Hstep Hok. inversion Hstep as
    [? ?|? ? r ? ? Hrun|? ? r ? ? Hrun|? ? r ? ? Hrun|? ? cs ? ? vc Hrun]; subst.
  - split; [done|]. split; [by left|]. split; [by exists 0|].
    intros p Hp. unfold instantiateEntry. simpl.
    apply lookup_insert_is_Some'. by right.
  - destruct (h !! r) as [d|] eqn:Hd;
      [|unfold invalidate, deref in Hrun; by rewrite Hd in Hrun].
    rewrite (invalidate_run st h r d Hd) in Hrun. injection Hrun as <- <-.
    split; [done|]. split; [by left|]. split; [by exists 0|].
    intros p Hp. apply lookup_insert_is_Some'. by right.
  - destruct (touch_Ok_inv _ _ _ _ _ Hok Hrun) as (_ & ? & ? & ? & ? & ?).
    split; [done|]. split; [by left|].
    destruct (h !! r) as [d|] eqn:Hd;
      [|unfold touch, deref in Hrun; by rewrite Hd in Hrun].
    destruct (touch_run st h r d Hok Hd) as [Hin Hout].
    destruct (decide (0 <= wrap_int (way d) < numWays st)) as [Hw|Hw];
      [|by rewrite Hout in Hrun].
    destruct (Hin Hw) as (v' & a & _ & _ & Hrun'). rewrite Hrun' in Hrun.
    injection Hrun as <- <-. split.
    + exists (set d). intros s' Hs'. simpl.
      rewrite lookup_insert_ne by done. by apply ensureSet_other.
    + intros p Hp. apply lookup_insert_is_Some'. by right.
  - destruct (reset_Ok_inv _ _ _ _ _ Hok Hrun) as (_ & ? & ? & ? & ? & ?).
    split; [done|]. split; [by right|].
    destruct (h !! r) as [d|] eqn:Hd;
      [|unfold reset, deref in Hrun; by rewrite Hd in Hrun].
    destruct (reset_run st h r d Hok Hd) as [Hin Hout].
    destruct (decide (0 <= wrap_int (way d) < numWays st)) as [Hw|Hw];
      [|by rewrite Hout in Hrun].
    destruct (Hin Hw) as (v' & a & _ & _ & Hrun'). rewrite Hrun' in Hrun.
    injection Hrun as <- <-. split.
    + exists (set d). intros s' Hs'. simpl.
      rewrite lookup_insert_ne by done. by apply ensureSet_other.
    + intros p Hp. apply lookup_insert_is_Some'. by right.
  - destruct (getVictim_Ok_inv _ _ _ _ _ _ Hok Hrun) as (_ & ? & ? & ? & ? & ?).
    split; [done|]. split; [by left|].
    destruct cs as [|e0 l]; [done|].
    assert (forall e, e ∈ e0 :: l -> is_Some (h !! replacementData e)) as Hptr.
    { unfold getVictim in Hrun.
      destruct (for_each stamp (e0 :: l) h) as [h1| | |] eqn:Hst; try done.
      by eapply for_each_stamp_Ok_ptrs. }
    destruct (getVictim_run st h e0 l Hok Hptr) as (h1 & v1 & Hstamp & _ & _ & Hrun').
    rewrite Hrun' in Hrun. injection Hrun as <- <- _. split.
    + exists (getSet e0). intros s' Hs'. simpl.
      rewrite lookup_insert_ne by done. by apply ensureSet_other.
    + intros p [d Hd]. destruct (stamp_lookup _ _ _ Hptr Hstamp) as [Hfwd _].
      destruct (Hfwd _ _ Hd) as (d1 & -> & _). by eexists.
Qed.

Lemma step_frame_witness :
  exists st' h',
    reset ex_policy ex_heap 10%nat = Ok (st', h') /\
    pv st' = pv ex_policy /\ quantum st' = quantum ex_policy.
Proof.
  assert (policy_ok ex_policy) as H1 by compute_done.
  destruct (reset ex_policy ex_heap 10%nat) as [[st' h']| | |] eqn:Hrun;
    try (vm_compute in Hrun; discriminate).
  destruct (step_frame ex_policy ex_heap st' h' (step_reset _ _ _ _ _ Hrun) H1)
    as ((_ & _ & Hq & Hpv) & _).
  exists st', h'. split; [reflexivity|]. split; [exact Hpv|exact Hq].
Defined.

(** ** Witnesses for the invariant and the schedule *)

Lemma reachable_invariant_witness :
  policy_ok (fst (ex_policy, snd (instantiateEntry ∅))) /\
  pattern_ok (fst (ex_policy, snd (instantiateEntry ∅))).
Proof.
  assert (is_int (p_numWays ex_params)) as H1 by compute_done.
  assert (is_int (p_mru_pct ex_params)) as H2 by compute_done.
  assert (is_int (p_quantum ex_params)) as H3 by compute_done.
  assert (reachable ex_params (ex_policy, snd (instantiateEntry ∅))) as H4.
  { exists ex_policy. split; [reflexivity|].
    eapply rtc_l; [apply step_instantiateEntry|apply rtc_refl]. }
  destruct (reachable_invariant ex_params _ H1 H2 H3 H4) as (Hok & Hpat & _).
  split; [exact Hok|exact Hpat].
Defined.


(** ** Null record pointers *)

(** X20: no operation checks the record pointer before its first use:
    invalidate, touch and reset on a pointer that owns no record, and
    getVictim on a list in which some candidate has none, all dereference
    it; the null checks in the second and third loop of getVictim come
    after the first loop has already used the pointer. *)
Theorem null_record st h p :
  h !! p = None ->
  invalidate st h p = Undefined /\
  touch st h p = Undefined /\
  reset st h p = Undefined /\
  (forall cands e, e ∈ cands -> replacementData e = p ->
     getVictim st h cands = Undefined).
Proof.
  intros Hp. split_and!.
  - unfold invalidate, deref. by rewrite Hp.
  - unfold touch, deref. by rewrite Hp.
  - unfold reset, deref. by rewrite Hp.
  - intros cands e He Hr. destruct cands as [|e0 l]; [by apply elem_of_nil in He|].
    unfold getVictim.
    destruct (for_each stamp (e0 :: l) h) as [h1| | |] eqn:Hst; try done.
    + destruct (for_each_stamp_Ok_ptrs _ _ _ Hst e He) as [d Hd]. congruence.
    + pose proof (no_abort_for_each stamp (e0 :: l)
                    ltac:(intros x h0; unfold stamp;
                          apply no_abort_bind; [apply no_abort_deref|intros; apply no_abort_Ok])
                    h) as [Hf _]. by rewrite Hst in Hf.
    + pose proof (no_abort_for_each stamp (e0 :: l)
                    ltac:(intros x h0; unfold stamp;
                          apply no_abort_bind; [apply no_abort_deref|intros; apply no_abort_Ok])
                    h) as [_ Hf]. by rewrite Hst in Hf.
Qed.

Lemma null_record_witness :
  invalidate ex_policy ex_heap 99%nat = Undefined /\
  getVictim ex_policy ex_heap [mkEntry 7 0 10%nat; mkEntry 7 1 99%nat] = Undefined.
Proof.
  assert (ex_heap !! 99%nat = None) as H1 by reflexivity.
  destruct (null_record ex_policy ex_heap 99%nat H1) as (Hi & _ & _ & Hg).
  split; [exact Hi|].
  apply (Hg _ (mkEntry 7 1 99%nat)); [|reflexivity].
  apply elem_of_cons. right. apply elem_of_cons. by left.
Defined.
